(** * Tags: a shallow embedding of [mayan/apps/tags/models.py]

    The module under study declares the [Tag] model (a label, a colour and a
    many-to-many relation to documents), its proxy [DocumentTag], and five
    operations: [attach_to], [remove_from], [get_document_count],
    [get_documents] and [save].

    The database is an explicit [Store]; every method is a computation in a
    state-and-exception monad over it.  Querysets are kept lazy, as in the
    ORM: a queryset is a description that is run against the store either
    by iterating it or by asking for its [count]. *)

From stdpp Require Import gmap strings list sorting.
From Stdlib Require Import Ascii.

Local Open Scope string_scope.
Local Open Scope list_scope.
Local Open Scope nat_scope.

(** ** Identifiers *)

(** Primary keys of tags and of documents, and user identifiers. *)
Abbreviation TagId := nat (only parsing).
Abbreviation DocumentId := nat (only parsing).
Abbreviation User := nat (only parsing).

(** Permissions; the module only ever asks for [permission_document_view]. *)
Inductive Permission : Type :=
| permission_document_view
| permission_named (name : string).

#[global] Instance Permission_eq_dec : EqDecision Permission.
Proof. solve_decision. Defined.

(** The four event types imported from [.events]. *)
Inductive EventType : Type :=
| event_tag_attached
| event_tag_created
| event_tag_edited
| event_tag_removed.

#[global] Instance EventType_eq_dec : EqDecision EventType.
Proof. solve_decision. Defined.

(** A generic reference to a stored object: the name of its concrete model
    and its primary key. *)
Record ObjRef : Type := mkRef { ref_model : string; ref_pk : option nat }.

#[global] Instance ObjRef_eq_dec : EqDecision ObjRef.
Proof. solve_decision. Defined.

(** An entry of the event log. *)
Record Event : Type := mkEvent {
  ev_type : EventType;
  ev_action_object : option ObjRef;
  ev_actor : option User;
  ev_target : option ObjRef
}.

#[global] Instance Event_eq_dec : EqDecision Event.
Proof. solve_decision. Defined.

(** ** The [Tag] model *)

(** A row of the tag table: the two columns declared next to the primary
    key ([label], [color]). *)
Record TagRow : Type := mkRow { row_label : string; row_color : string }.

#[global] Instance TagRow_eq_dec : EqDecision TagRow.
Proof. solve_decision. Defined.

(** ** The store *)

Record Store : Type := mkStore {
  (** the tag table, by primary key *)
  tag_table : gmap nat TagRow;
  (** the through table of [Tag.documents]: rows [(tag_id, document_id)] *)
  tag_documents : list (TagId * DocumentId);
  (** the access control entries: who holds which permission on which
      document *)
  acl_entries : list (Permission * User * DocumentId);
  (** the keys of the rows of the document table *)
  document_table : list DocumentId;
  (** the committed events, oldest first *)
  event_log : list Event
}.

Definition empty_store : Store :=
  {| tag_table := ∅; tag_documents := []; acl_entries := [];
     document_table := []; event_log := [] |}.

(** ** Computations: state and exceptions *)

Inductive Exception : Type :=
| ValueError
| IntegrityError
| AttributeError.

Inductive Result (A : Type) : Type :=
| Ok (a : A)
| Raise (e : Exception).
Arguments Ok {A} a.
Arguments Raise {A} e.

(** A method either returns a value and a new store, or raises; a raised
    exception leaves the caller with the store it had (each operation runs
    in one transaction). *)
Definition M (A : Type) : Type := Store -> Result (A * Store).

Definition ret {A} (a : A) : M A := fun s => Ok (a, s).
Definition raise {A} (e : Exception) : M A := fun _ => Raise e.
Definition bind {A B} (m : M A) (k : A -> M B) : M B :=
  fun s => match m s with
           | Ok (a, s') => k a s'
           | Raise e => Raise e
           end.

Notation "'do' x <- m ; k" := (bind m (fun x => k))
  (at level 10, x name, m at level 100, k at level 200,
   format "'[v' 'do'  x  <-  m ; '/' k ']'").
Notation "'do_' m ; k" := (bind m (fun _ => k))
  (at level 10, m at level 100, k at level 200,
   format "'[v' 'do_'  m ; '/' k ']'").

(** The store a computation leaves behind; the initial store if it raised. *)
Definition exec {A} (m : M A) (s : Store) : Store :=
  match m s with
  | Ok (_, s') => s'
  | Raise _ => s
  end.

(** [n] calls of the same method in a row. *)
Fixpoint times (n : nat) (m : M unit) : M unit :=
  match n with
  | 0 => ret tt
  | S n' => do_ m; times n' m
  end.

(** Field updates of the store. *)
Definition set_tag_table (t : gmap nat TagRow) (s : Store) : Store :=
  {| tag_table := t; tag_documents := tag_documents s;
     acl_entries := acl_entries s; document_table := document_table s;
     event_log := event_log s |}.
Definition set_tag_documents (r : list (TagId * DocumentId)) (s : Store) : Store :=
  {| tag_table := tag_table s; tag_documents := r;
     acl_entries := acl_entries s; document_table := document_table s;
     event_log := event_log s |}.
Definition set_event_log (l : list Event) (s : Store) : Store :=
  {| tag_table := tag_table s; tag_documents := tag_documents s;
     acl_entries := acl_entries s; document_table := document_table s;
     event_log := l |}.

(** ** Model classes *)

(** The two model classes the module declares. *)
Inductive ModelClass : Type :=
| TagClass
| DocumentTagClass.

#[global] Instance ModelClass_eq_dec : EqDecision ModelClass.
Proof. solve_decision. Defined.

(** The names of the methods defined in the body of [Tag]. *)
Inductive MethodName : Type :=
| m_str
| m_attach_to
| m_get_absolute_url
| m_get_document_count
| m_get_documents
| m_get_preview_widget
| m_remove_from
| m_save.

#[global] Instance MethodName_eq_dec : EqDecision MethodName.
Proof. solve_decision. Defined.

(** What a [class] statement of the module contributes: its base (when it
    is another class of the module), the fields and methods of its body, and
    its inner [Meta]. *)
Record ClassDecl : Type := mkClass {
  cd_base : option ModelClass;
  cd_fields : list string;
  cd_methods : list MethodName;
  meta_proxy : bool;
  meta_ordering : option (list string);
  meta_verbose_name : string;
  meta_verbose_name_plural : string
}.

Definition declaration (c : ModelClass) : ClassDecl :=
  match c with
  | TagClass =>
      {| cd_base := None;
         cd_fields := ["label"; "color"; "documents"];
         cd_methods := [m_str; m_attach_to; m_get_absolute_url;
                        m_get_document_count; m_get_documents;
                        m_get_preview_widget; m_remove_from; m_save];
         meta_proxy := false;
         meta_ordering := Some ["label"];
         meta_verbose_name := "Tag";
         meta_verbose_name_plural := "Tags" |}
  | DocumentTagClass =>
      {| cd_base := Some TagClass;
         cd_fields := [];
         cd_methods := [];
         meta_proxy := true;
         meta_ordering := None;
         meta_verbose_name := "Document tag";
         meta_verbose_name_plural := "Document tags" |}
  end.

(** Linearisation of the classes of the module a class inherits from,
    itself first. *)
Definition mro (c : ModelClass) : list ModelClass :=
  c :: match cd_base (declaration c) with
       | Some b => [b]
       | None => []
       end.

(** The class whose body defines method [m] for instances of [c]. *)
Definition resolve_method (c : ModelClass) (m : MethodName) : option ModelClass :=
  List.find (fun k => bool_decide (m ∈ cd_methods (declaration k))) (mro c).

(** The fields an instance of [c] carries. *)
Definition all_fields (c : ModelClass) : list string :=
  flat_map (fun k => cd_fields (declaration k)) (rev (mro c)).

(** A proxy model has no table of its own: its concrete model is its
    base's. *)
Definition concrete_model (c : ModelClass) : ModelClass :=
  match meta_proxy (declaration c), cd_base (declaration c) with
  | true, Some b => b
  | _, _ => c
  end.

Definition class_name (c : ModelClass) : string :=
  match c with
  | TagClass => "tag"
  | DocumentTagClass => "documenttag"
  end.

(** The table that holds the rows of [c]. *)
Definition db_table (c : ModelClass) : string :=
  "tags_" ++ class_name (concrete_model c).

(** [Meta.ordering] is inherited when the class does not give its own. *)
Definition ordering (c : ModelClass) : list string :=
  match meta_ordering (declaration c) with
  | Some o => o
  | None =>
      match cd_base (declaration c) with
      | Some b => default [] (meta_ordering (declaration b))
      | None => []
      end
  end.

(** ** Instances *)

(** A model instance in memory: its class and its field values.  [pk] is
    [None] until the instance has been saved. *)
Record Tag : Type := mkTag {
  class_of : ModelClass;
  pk : option TagId;
  label : string;
  color : string
}.

#[global] Instance Tag_eq_dec : EqDecision Tag.
Proof. solve_decision. Defined.

Definition row_of (self : Tag) : TagRow :=
  {| row_label := label self; row_color := color self |}.

Definition with_pk (k : TagId) (self : Tag) : Tag :=
  {| class_of := class_of self; pk := Some k;
     label := label self; color := color self |}.

(** References to stored objects, as the event log keeps them: by concrete
    model and primary key. *)
Definition ref_of_tag (self : Tag) : ObjRef :=
  {| ref_model := class_name (concrete_model (class_of self));
     ref_pk := pk self |}.
Definition ref_of_document (document : DocumentId) : ObjRef :=
  {| ref_model := "document"; ref_pk := Some document |}.

(** ** The many-to-many relation [Tag.documents] *)

(** The related manager [self.documents]: the through table seen from one
    tag. *)
Record RelatedManager : Type := mkManager { rm_instance : TagId }.

(** [self.documents].  The relation can only be used once the instance has
    a primary key. *)
Definition documents (self : Tag) : M RelatedManager :=
  match pk self with
  | Some k => ret {| rm_instance := k |}
  | None => raise ValueError
  end.

(** [manager.add(document)]: a through row is inserted only when the pair is
    not in the table yet.  The two columns of the through table are foreign
    keys: the insert is refused when the tag or the document has no row. *)
Definition rm_add (m : RelatedManager) (document : DocumentId) : M unit :=
  fun s =>
    let row := (rm_instance m, document) in
    if bool_decide (row ∈ tag_documents s)
    then Ok (tt, s)
    else if bool_decide (is_Some (tag_table s !! rm_instance m))
            && bool_decide (document ∈ document_table s)
         then Ok (tt, set_tag_documents (tag_documents s ++ [row]) s)
         else Raise IntegrityError.

(** [manager.remove(document)]: the through rows of the pair are deleted;
    deleting nothing is not an error. *)
Definition rm_remove (m : RelatedManager) (document : DocumentId) : M unit :=
  fun s =>
    let row := (rm_instance m, document) in
    Ok (tt, set_tag_documents (filter (fun r => r ≠ row) (tag_documents s)) s).

(** ** Querysets *)

(** A queryset is lazy: it records the relation it starts from and the
    filters put on it, and reads the store only when it is evaluated. *)
Inductive QuerySet : Type :=
| qs_related (tag : TagId)
| qs_filter_acl (permission : Permission) (user : User) (q : QuerySet).

Definition get_queryset (m : RelatedManager) : QuerySet :=
  qs_related (rm_instance m).

(** [manager.all()] *)
Definition rm_all (m : RelatedManager) : QuerySet := get_queryset m.

(** What [restrict_queryset] is handed as its [queryset] argument: the
    manager itself in [get_document_count], a queryset in [get_documents].
    A manager answers queryset methods through [get_queryset]. *)
Inductive QuerySource : Type :=
| of_manager (m : RelatedManager)
| of_queryset (q : QuerySet).

Definition as_queryset (src : QuerySource) : QuerySet :=
  match src with
  | of_manager m => get_queryset m
  | of_queryset q => q
  end.

(** Does [user] hold [permission] on [document]? *)
Definition has_access (s : Store) (permission : Permission) (user : User)
    (document : DocumentId) : bool :=
  bool_decide ((permission, user, document) ∈ acl_entries s).

(** The tag whose documents a queryset ranges over. *)
Fixpoint qs_tag (q : QuerySet) : TagId :=
  match q with
  | qs_related t => t
  | qs_filter_acl _ _ q' => qs_tag q'
  end.

(** The conjunction of the filters of a queryset, on one document. *)
Fixpoint qs_where (s : Store) (q : QuerySet) (document : DocumentId) : bool :=
  match q with
  | qs_related _ => true
  | qs_filter_acl p u q' => has_access s p u document && qs_where s q' document
  end.

(** Iterating a queryset: the documents of the relation, each filter applied
    in turn. *)
Fixpoint qs_rows (s : Store) (q : QuerySet) : list DocumentId :=
  match q with
  | qs_related t =>
      map snd (filter (fun r => fst r = t) (tag_documents s))
  | qs_filter_acl p u q' =>
      filter (fun d => has_access s p u d = true) (qs_rows s q')
  end.

(** [queryset.count()]: one counting pass over the through table. *)
Definition qs_count (s : Store) (q : QuerySet) : nat :=
  foldr (fun r n =>
           if bool_decide (fst r = qs_tag q) && qs_where s q (snd r)
           then S n else n)
        0 (tag_documents s).

Definition iterate (q : QuerySet) : M (list DocumentId) :=
  fun s => Ok (qs_rows s q, s).
Definition count (q : QuerySet) : M nat :=
  fun s => Ok (qs_count s q, s).

(** ** Collaborators *)

(** Modelled from the spec: [AccessControlList.objects.restrict_queryset]
    is not part of the module; it "filters a document collection by viewer
    permission", never errors, and yields nothing where access is absent. *)
Definition restrict_queryset (permission : Permission) (queryset : QuerySource)
    (user : User) : M QuerySet :=
  ret (qs_filter_acl permission user (as_queryset queryset)).

(** Modelled from the spec: [EventType.commit] is not part of the module;
    it records one event with the given subject ([action_object]), actor
    and target. *)
Definition commit (event : EventType) (action_object : option ObjRef)
    (actor : option User) (target : option ObjRef) : M unit :=
  fun s =>
    Ok (tt, set_event_log
              (event_log s ++
               [{| ev_type := event; ev_action_object := action_object;
                   ev_actor := actor; ev_target := target |}]) s).

(** ** Methods of [Tag] *)

Definition attach_to (self : Tag) (document : DocumentId)
    (user : option User) : M unit :=
  do m <- documents self;
  do_ rm_add m document;
  commit event_tag_attached (Some (ref_of_tag self)) user
         (Some (ref_of_document document)).

Definition get_document_count (self : Tag) (user : User) : M nat :=
  do m <- documents self;
  do queryset <- restrict_queryset permission_document_view (of_manager m) user;
  count queryset.

Definition get_documents (self : Tag) (user : User) : M QuerySet :=
  do m <- documents self;
  restrict_queryset permission_document_view (of_queryset (rm_all m)) user.

Definition remove_from (self : Tag) (document : DocumentId)
    (user : option User) : M unit :=
  do m <- documents self;
  do_ rm_remove m document;
  commit event_tag_removed (Some (ref_of_tag self)) user
         (Some (ref_of_document document)).

(** ** Persistence of a [Tag] *)

(** The [unique=True] constraint on [label]: is the label held by a row
    other than the one with key [self_pk]? *)
Definition label_taken (tbl : gmap nat TagRow) (lbl : string)
    (self_pk : option TagId) : bool :=
  bool_decide
    (map_Exists (fun k r => Some k ≠ self_pk ∧ row_label r = lbl) tbl).

(** The key an insert without a key receives. *)
Definition new_pk (tbl : gmap nat TagRow) : TagId :=
  S (max_list (elements (dom tbl))).

(** [UPDATE ... WHERE id = k]: reports whether a row was updated. *)
Definition sql_update (k : TagId) (row : TagRow) : M bool :=
  fun s =>
    match tag_table s !! k with
    | None => Ok (false, s)
    | Some _ =>
        if label_taken (tag_table s) (row_label row) (Some k)
        then Raise IntegrityError
        else Ok (true, set_tag_table (<[k:=row]> (tag_table s)) s)
    end.

(** [INSERT]: returns the key of the new row.  Keys and labels are taken
    within the range of their columns; the limits of the database on the
    size of a key or of a label are not represented. *)
Definition sql_insert (key : option TagId) (row : TagRow) : M TagId :=
  fun s =>
    let k := default (new_pk (tag_table s)) key in
    if bool_decide (is_Some (tag_table s !! k))
       || label_taken (tag_table s) (row_label row) None
    then Raise IntegrityError
    else Ok (k, set_tag_table (<[k:=row]> (tag_table s)) s).

(** [models.Model.save]: an instance with a key is updated in place, and
    inserted when no row had that key; an instance without a key is
    inserted.  The result is the instance as it is after the call, and
    whether a row was created. *)
Definition model_save (self : Tag) : M (Tag * bool) :=
  do updated <- match pk self with
                | Some k => sql_update k (row_of self)
                | None => ret false
                end;
  if (updated : bool) then ret (self, false)
  else
    do k <- sql_insert (pk self) (row_of self);
    ret (with_pk k self, true).

(** One entry of the [method_event] decorator: the event to commit and the
    name of its target. *)
Record EventSpec : Type := mkSpec { es_event : EventType; es_target : string }.

Definition resolve_target (name : string) (self : Tag) : option ObjRef :=
  if bool_decide (name = "self") then Some (ref_of_tag self) else None.

(** Modelled from the spec: the decorator [method_event] and its manager
    [EventManagerSave] are not part of the module; the decorated [save] is
    "a post-persist hook with a discriminator for create vs. update": on
    insert it commits the [created] entry, on update the [edited] entry. *)
Definition method_event_save (created edited : EventSpec)
    (func : Tag -> M (Tag * bool)) (self : Tag) : M Tag :=
  do r <- func self;
  let e := if snd r then created else edited in
  do_ commit (es_event e) None None (resolve_target (es_target e) (fst r));
  ret (fst r).

Definition save : Tag -> M Tag :=
  method_event_save
    {| es_event := event_tag_created; es_target := "self" |}
    {| es_event := event_tag_edited; es_target := "self" |}
    model_save.

(** ** Listing tags *)

(** Comparison of two instances on one field. *)
Definition field_compare (name : string) (a b : Tag) : comparison :=
  if bool_decide (name = "label") then String.compare (label a) (label b)
  else if bool_decide (name = "color") then String.compare (color a) (color b)
  else if bool_decide (name = "id")
  then Nat.compare (default 0 (pk a)) (default 0 (pk b))
  else Eq.

(** An entry of [Meta.ordering] is a field name, descending when it starts
    with a dash. *)
Definition key_compare (key : string) (a b : Tag) : comparison :=
  match key with
  | String "-"%char name => CompOpp (field_compare name a b)
  | _ => field_compare key a b
  end.

Fixpoint ordering_compare (keys : list string) (a b : Tag) : comparison :=
  match keys with
  | [] => Eq
  | key :: keys' =>
      match key_compare key a b with
      | Eq => ordering_compare keys' a b
      | c => c
      end
  end.

Definition ordering_le (keys : list string) (a b : Tag) : Prop :=
  ordering_compare keys a b ≠ Gt.

#[global] Instance ordering_le_dec keys a b : Decision (ordering_le keys a b).
Proof.
  unfold ordering_le.
  destruct (ordering_compare keys a b); [left|left|right]; congruence.
Defined.

(** The stored rows as instances of class [c]. *)
Definition instances (c : ModelClass) (s : Store) : list Tag :=
  map (fun kr => {| class_of := c; pk := Some (fst kr);
                    label := row_label (snd kr); color := row_color (snd kr) |})
      (map_to_list (tag_table s)).

(** [c.objects.all()], evaluated: the rows in the order [Meta.ordering]
    asks for. *)
Definition objects_all (c : ModelClass) (s : Store) : list Tag :=
  merge_sort (ordering_le (ordering c)) (instances c s).

(** Ascending order of labels. *)
Definition label_le (a b : Tag) : Prop :=
  String.leb (label a) (label b) = true.

(** ** The events of the module *)

Definition attached_event (self : Tag) (document : DocumentId)
    (actor : option User) : Event :=
  {| ev_type := event_tag_attached;
     ev_action_object := Some (ref_of_tag self);
     ev_actor := actor;
     ev_target := Some (ref_of_document document) |}.

Definition removed_event (self : Tag) (document : DocumentId)
    (actor : option User) : Event :=
  {| ev_type := event_tag_removed;
     ev_action_object := Some (ref_of_tag self);
     ev_actor := actor;
     ev_target := Some (ref_of_document document) |}.

Definition created_event (self : Tag) : Event :=
  {| ev_type := event_tag_created; ev_action_object := None;
     ev_actor := None; ev_target := Some (ref_of_tag self) |}.

Definition edited_event (self : Tag) : Event :=
  {| ev_type := event_tag_edited; ev_action_object := None;
     ev_actor := None; ev_target := Some (ref_of_tag self) |}.

(** A tag is stored when its key names a row of the table. *)
Definition is_stored (s : Store) (self : Tag) : Prop :=
  ∃ k, pk self = Some k ∧ is_Some (tag_table s !! k).

(** A save of [self] would break the uniqueness of labels: a row other than
    its own holds its label. *)
Definition would_violate (s : Store) (self : Tag) : Prop :=
  ∃ k r, tag_table s !! k = Some r ∧ Some k ≠ pk self
         ∧ row_label r = label self.

(** No two rows of the tag table share a label. *)
Definition labels_unique (s : Store) : Prop :=
  ∀ k1 k2 r1 r2,
    tag_table s !! k1 = Some r1 → tag_table s !! k2 = Some r2 →
    row_label r1 = row_label r2 → k1 = k2.

(** One call of a state-changing method of the module. *)
Inductive step (s : Store) : Store → Prop :=
| step_save self r s' :
    save self s = Ok (r, s') → step s s'
| step_attach_to self document actor s' :
    attach_to self document actor s = Ok (tt, s') → step s s'
| step_remove_from self document actor s' :
    remove_from self document actor s = Ok (tt, s') → step s s'.

(** The stores the module can produce from a database without tags. *)
Inductive reachable : Store → Prop :=
| reachable_init s : tag_table s = ∅ → reachable s
| reachable_step s s' : reachable s → step s s' → reachable s'.

(** A database in which one tag has just been created. *)
Definition new_invoice_tag : Tag :=
  {| class_of := TagClass; pk := None; label := "invoice"; color := "#ff0000" |}.

Definition created_store : Store := exec (save new_invoice_tag) empty_store.

(** A concrete database used in the examples below: one stored tag, two
    documents of which one is attached to it, one user allowed to view
    both (and holding an entry for a document that has no row). *)
Definition invoice_tag : Tag :=
  {| class_of := TagClass; pk := Some 1; label := "invoice"; color := "#ff0000" |}.

Definition sample_store : Store :=
  {| tag_table := {[ 1 := row_of invoice_tag ]};
     tag_documents := [(1, 7)];
     acl_entries := [(permission_document_view, 3, 7);
                     (permission_document_view, 3, 8);
                     (permission_document_view, 3, 9)];
     document_table := [7; 8];
     event_log := [] |}.

(** The through table after [add] and after [remove] of one pair. *)
Definition added_rows (k : TagId) (document : DocumentId) (s : Store)
    : list (TagId * DocumentId) :=
  if bool_decide ((k, document) ∈ tag_documents s)
  then tag_documents s
  else tag_documents s ++ [(k, document)].

Definition removed_rows (k : TagId) (document : DocumentId) (s : Store)
    : list (TagId * DocumentId) :=
  filter (fun r => r ≠ (k, document)) (tag_documents s).

(** The same instance seen as an instance of class [c]. *)
Definition as_class (c : ModelClass) (self : Tag) : Tag :=
  {| class_of := c; pk := pk self; label := label self; color := color self |}.

(** Two results of [save] that differ at most in the class of the
    instance they hand back. *)
Definition same_save_result (a b : Result (Tag * Store)) : Prop :=
  match a, b with
  | Ok (ta, sa), Ok (tb, sb) =>
      sa = sb ∧ as_class TagClass ta = as_class TagClass tb
  | Raise ea, Raise eb => ea = eb
  | _, _ => False
  end.

(** The key a save of an instance without a row writes to. *)
Definition insert_key (self : Tag) (s : Store) : TagId :=
  default (new_pk (tag_table s)) (pk self).

(** [Tag.__str__]: a tag prints as its label. *)
Definition Tag_str (self : Tag) : string := label self.

(** The queryset [get_documents] builds for the tag with key [k] and
    [user]. *)
Definition documents_for (k : TagId) (user : User) : QuerySet :=
  qs_filter_acl permission_document_view user (qs_related k).

(** [add] of the pair goes through: it is related already, or both the tag
    and the document have a row. *)
Definition can_attach (s : Store) (k : TagId) (document : DocumentId) : Prop :=
  (k, document) ∈ tag_documents s
  ∨ (is_Some (tag_table s !! k) ∧ document ∈ document_table s).

(** ** Calling a method on an instance *)

(** A call of one of the five operations, with its arguments. *)
Inductive Call : Type :=
| call_attach_to (document : DocumentId) (user : option User)
| call_remove_from (document : DocumentId) (user : option User)
| call_get_documents (user : User)
| call_get_document_count (user : User)
| call_save.

(** What a call hands back.  [save] changes the instance it is called on
    (it receives its key): its value is the instance after the call. *)
Inductive Value : Type :=
| v_none
| v_count (n : nat)
| v_queryset (q : QuerySet)
| v_instance (t : Tag).

Definition method_of (call : Call) : MethodName :=
  match call with
  | call_attach_to _ _ => m_attach_to
  | call_remove_from _ _ => m_remove_from
  | call_get_documents _ => m_get_documents
  | call_get_document_count _ => m_get_document_count
  | call_save => m_save
  end.

(** The methods the body of [Tag] defines, by call. *)
Definition Tag_body (call : Call) (self : Tag) : M Value :=
  match call with
  | call_attach_to document user =>
      do_ attach_to self document user; ret v_none
  | call_remove_from document user =>
      do_ remove_from self document user; ret v_none
  | call_get_documents user =>
      do q <- get_documents self user; ret (v_queryset q)
  | call_get_document_count user =>
      do n <- get_document_count self user; ret (v_count n)
  | call_save =>
      do t <- save self; ret (v_instance t)
  end.

(** The body a class statement gives to the method of a call, if it
    defines that method: the body of [DocumentTag] holds a [Meta] only. *)
Definition class_body (c : ModelClass) (call : Call) : option (Tag → M Value) :=
  match c with
  | TagClass => Some (Tag_body call)
  | DocumentTagClass => None
  end.

(** [self.method(args)]: the method is looked up along the classes of the
    instance and the body found first is run on the instance. *)
Definition invoke (self : Tag) (call : Call) : M Value :=
  match resolve_method (class_of self) (method_of call) with
  | Some c =>
      match class_body c call with
      | Some body => body self
      | None => raise AttributeError
      end
  | None => raise AttributeError
  end.

(** The instance a caller holds after a call. *)
Definition instance_after (self : Tag) (v : Value) : Tag :=
  match v with
  | v_instance t => t
  | _ => self
  end.

(** A sequence of calls on one instance. *)
Fixpoint run_calls (self : Tag) (calls : list Call) : M (list Value) :=
  match calls with
  | [] => ret []
  | call :: rest =>
      do v <- invoke self call;
      do vs <- run_calls (instance_after self v) rest;
      ret (v :: vs)
  end.

(** A value with the class of the instance in it forgotten. *)
Definition erase_class (v : Value) : Value :=
  match v with
  | v_instance t => v_instance (as_class TagClass t)
  | _ => v
  end.

(** Two outcomes that agree on the error, or on the store and on the value
    up to [erase]. *)
Definition same_outcome {A} (erase : A → A) (a b : Result (A * Store)) : Prop :=
  match a, b with
  | Ok (va, sa), Ok (vb, sb) => sa = sb ∧ erase va = erase vb
  | Raise ea, Raise eb => ea = eb
  | _, _ => False
  end.

(** A database in which "urgent" was created before "archive". *)
Definition urgent_tag : Tag :=
  {| class_of := TagClass; pk := None; label := "urgent"; color := "#ff0000" |}.
Definition archive_tag : Tag :=
  {| class_of := TagClass; pk := None; label := "archive"; color := "#00ff00" |}.
Definition two_tag_store : Store :=
  exec (save archive_tag) (exec (save urgent_tag) empty_store).

Definition one_tag_store : Store := exec (save urgent_tag) empty_store.

(** [sample_store] after document 8 was attached to its tag, and after
    document 7 was removed from it. *)
Definition attached_store : Store :=
  exec (attach_to invoice_tag 8 (Some 3)) sample_store.
Definition removed_store : Store :=
  exec (remove_from invoice_tag 7 None) sample_store.

(** The first tag of [sample_store] and of [two_tag_store], relabelled. *)
Definition bills_tag : Tag :=
  {| class_of := TagClass; pk := Some 1; label := "bills"; color := "#0000ff" |}.

(** * Properties *)

(** ** Counting and iterating a queryset *)

Section QuerySets.
Variable s : Store.

Lemma filter_related_rows (P : DocumentId → Prop) `{!∀ d, Decision (P d)}
    (Q : TagId * DocumentId → Prop) `{!∀ r, Decision (Q r)}
    (rows : list (TagId * DocumentId)) :
  filter P (map snd (filter Q rows))
  = map snd (filter (fun r => P (snd r) ∧ Q r) rows).
Proof.
  induction rows as [|r rows IH]; [done|].
  rewrite !filter_cons.
  destruct (decide (Q r)) as [HQ|HQ]; simpl.
  - rewrite filter_cons.
    destruct (decide (P r.2)) as [HP|HP].
    + rewrite decide_True by done. simpl. by rewrite IH.
    + rewrite decide_False by tauto. done.
  - rewrite decide_False by tauto. done.
Qed.

(** Iterating a queryset selects the through rows of its tag that pass
    all of its filters. *)
Lemma qs_rows_where (q : QuerySet) :
  qs_rows s q
  = map snd (filter (fun r => qs_where s q (snd r) = true ∧ fst r = qs_tag q)
                    (tag_documents s)).
Proof.
  induction q as [t|p u q IH]; simpl.
  - f_equal. apply list_filter_iff. intros r. tauto.
  - rewrite IH, filter_related_rows. f_equal.
    apply list_filter_iff. intros r.
    rewrite andb_true_iff. tauto.
Qed.

Lemma foldr_count_filter (P : TagId * DocumentId → Prop)
    `{!∀ r, Decision (P r)} (b : TagId * DocumentId → bool)
    (rows : list (TagId * DocumentId)) :
  (∀ r, b r = true ↔ P r) →
  foldr (fun r n => if b r then S n else n) 0 rows
  = length (filter P rows).
Proof.
  intros Hb. induction rows as [|r rows IH]; [done|].
  simpl. rewrite filter_cons.
  destruct (b r) eqn:E.
  - rewrite decide_True by (by apply Hb). simpl. by rewrite IH.
  - rewrite decide_False; [done|]. rewrite <- Hb. congruence.
Qed.

(** [count()] agrees with the length of the iteration. *)
Lemma qs_count_length (q : QuerySet) :
  qs_count s q = length (qs_rows s q).
Proof.
  rewrite qs_rows_where, length_map. unfold qs_count.
  apply foldr_count_filter. intros r.
  rewrite andb_true_iff, bool_decide_eq_true. tauto.
Qed.

Lemma elem_of_qs_rows (q : QuerySet) (d : DocumentId) :
  d ∈ qs_rows s q ↔ (qs_tag q, d) ∈ tag_documents s ∧ qs_where s q d = true.
Proof.
  rewrite qs_rows_where, list_elem_of_fmap. split.
  - intros [[t d'] [-> [[Hw Ht] Hin]%list_elem_of_filter]].
    simpl in *. by subst.
  - intros [Hin Hw]. exists (qs_tag q, d). split; [done|].
    apply list_elem_of_filter. done.
Qed.
End QuerySets.

(** C1: for every tag, user and store, [get_document_count(user)] returns
    exactly the number of documents of the collection [get_documents(user)]
    returns: both run the same view-permission filter on the same relation.
    On a saved tag both succeed, leave the store as it is, and the count is
    the length of the collection; on a tag without a key both raise. *)
Theorem get_document_count_is_length_of_get_documents
    (self : Tag) (user : User) (s : Store) :
  get_document_count self user s
  = (do q <- get_documents self user;
     do rows <- iterate q;
     ret (length rows)) s
  ∧
  (∀ k, pk self = Some k →
        ∃ q rows,
          get_documents self user s = Ok (q, s)
          ∧ iterate q s = Ok (rows, s)
          ∧ get_document_count self user s = Ok (length rows, s)
          ∧ (∀ d, d ∈ rows ↔
                  (k, d) ∈ tag_documents s
                  ∧ has_access s permission_document_view user d = true)).
Proof.
  unfold get_document_count, get_documents, documents, bind. split.
  - destruct (pk self) as [k|]; simpl; [|done].
    unfold count, ret. by rewrite qs_count_length.
  - intros k ->. simpl. eexists _, _.
    split; [reflexivity|]. split; [reflexivity|].
    split; [unfold count; by rewrite qs_count_length|].
    intros d. rewrite elem_of_qs_rows. simpl.
    by rewrite andb_true_r.
Qed.

Lemma get_document_count_is_length_of_get_documents_witness :
  ∃ q rows,
    get_documents invoice_tag 3 sample_store = Ok (q, sample_store)
    ∧ iterate q sample_store = Ok (rows, sample_store)
    ∧ get_document_count invoice_tag 3 sample_store
      = Ok (length rows, sample_store)
    ∧ (∀ d, d ∈ rows ↔
            (1, d) ∈ tag_documents sample_store
            ∧ has_access sample_store permission_document_view 3 d = true).
Proof.
  apply (get_document_count_is_length_of_get_documents invoice_tag 3 sample_store).
  reflexivity.
Defined.

(** One attached document the user may view: the count is one. *)
Example get_document_count_example :
  get_document_count invoice_tag 3 sample_store = Ok (1, sample_store)
  ∧ get_document_count invoice_tag 4 sample_store = Ok (0, sample_store).
Proof. split; vm_compute; reflexivity. Qed.

(** ** Attaching and removing *)

Section AttachRemove.
Variables (self : Tag) (k : TagId) (document : DocumentId).
Variable actor : option User.
Hypothesis Hpk : pk self = Some k.

Lemma attach_to_run (s : Store) :
  can_attach s k document →
  attach_to self document actor s
  = Ok (tt, {| tag_table := tag_table s;
               tag_documents := added_rows k document s;
               acl_entries := acl_entries s;
               document_table := document_table s;
               event_log := event_log s
                            ++ [attached_event self document actor] |}).
Proof using Hpk.
  intros Hcan.
  unfold attach_to, documents, bind, rm_add, commit, added_rows.
  rewrite Hpk. simpl.
  destruct (bool_decide ((k, document) ∈ tag_documents s)) eqn:Hin; [done|].
  apply bool_decide_eq_false in Hin.
  destruct Hcan as [Hin'|[Hrow Hdoc]]; [done|].
  by rewrite !bool_decide_eq_true_2.
Qed.

(** A pair that is not related and lacks a row at one end is refused by the
    foreign keys; [attach_to] lets the error through before it commits an
    event. *)
Lemma attach_to_refused (s : Store) :
  ¬ can_attach s k document →
  attach_to self document actor s = Raise IntegrityError.
Proof using Hpk.
  intros Hcan.
  unfold attach_to, documents, bind, rm_add.
  rewrite Hpk. simpl.
  rewrite bool_decide_eq_false_2 by (intros Hin; apply Hcan; by left).
  destruct (bool_decide (is_Some (tag_table s !! k))) eqn:Hrow;
    destruct (bool_decide (document ∈ document_table s)) eqn:Hdoc; try done.
  exfalso. apply Hcan. right.
  by apply bool_decide_eq_true in Hrow, Hdoc.
Qed.

Lemma remove_from_run (s : Store) :
  remove_from self document actor s
  = Ok (tt, {| tag_table := tag_table s;
               tag_documents := removed_rows k document s;
               acl_entries := acl_entries s;
               document_table := document_table s;
               event_log := event_log s
                            ++ [removed_event self document actor] |}).
Proof using Hpk.
  unfold remove_from, documents, bind, rm_remove, commit, removed_rows.
  rewrite Hpk. done.
Qed.

Lemma elem_of_added_rows (s : Store) :
  (k, document) ∈ added_rows k document s.
Proof.
  unfold added_rows. case_bool_decide; [done|].
  apply elem_of_app. right. by apply list_elem_of_singleton.
Qed.

Lemma not_elem_of_removed_rows (s : Store) :
  (k, document) ∉ removed_rows k document s.
Proof.
  unfold removed_rows. rewrite list_elem_of_filter. tauto.
Qed.

Lemma removed_rows_absent (s : Store) :
  (k, document) ∉ tag_documents s →
  removed_rows k document s = tag_documents s.
Proof.
  unfold removed_rows. intros Hnot.
  induction (tag_documents s) as [|r rows IH]; [done|].
  rewrite not_elem_of_cons in Hnot. destruct Hnot as [Hne Hrows].
  rewrite filter_cons, decide_True by congruence.
  by rewrite IH.
Qed.
End AttachRemove.

Lemma can_attach_dec (s : Store) (k : TagId) (document : DocumentId) :
  can_attach s k document ∨ ¬ can_attach s k document.
Proof.
  unfold can_attach.
  destruct (decide ((k, document) ∈ tag_documents s)); [by left; left|].
  destruct (decide (is_Some (tag_table s !! k))); [|right; tauto].
  destruct (decide (document ∈ document_table s)); [|right; tauto].
  left. by right.
Qed.

(** An instance without a key cannot use its relation. *)
Lemma unsaved_raises (self : Tag) (document : DocumentId)
    (actor : option User) (user : User) (s : Store) :
  pk self = None →
  attach_to self document actor s = Raise ValueError
  ∧ remove_from self document actor s = Raise ValueError
  ∧ get_documents self user s = Raise ValueError
  ∧ get_document_count self user s = Raise ValueError.
Proof.
  intros Hpk.
  unfold attach_to, remove_from, get_documents, get_document_count,
    documents, bind.
  by rewrite Hpk.
Qed.

Lemma attach_to_ok_inv (self : Tag) (document : DocumentId)
    (actor : option User) (s s' : Store) :
  attach_to self document actor s = Ok (tt, s') →
  ∃ k, pk self = Some k
       ∧ can_attach s k document
       ∧ s' = {| tag_table := tag_table s;
                 tag_documents := added_rows k document s;
                 acl_entries := acl_entries s;
                 document_table := document_table s;
                 event_log := event_log s
                              ++ [attached_event self document actor] |}.
Proof.
  intros H. destruct (pk self) as [k|] eqn:Hpk.
  - exists k. split; [done|].
    destruct (can_attach_dec s k document) as [Hcan|Hcan].
    + split; [done|].
      rewrite (attach_to_run self k) in H by done. by injection H as <-.
    + rewrite (attach_to_refused self k) in H by done. discriminate H.
  - unfold attach_to, documents, bind in H. by rewrite Hpk in H.
Qed.

Lemma remove_from_ok_inv (self : Tag) (document : DocumentId)
    (actor : option User) (s s' : Store) :
  remove_from self document actor s = Ok (tt, s') →
  ∃ k, pk self = Some k
       ∧ s' = {| tag_table := tag_table s;
                 tag_documents := removed_rows k document s;
                 acl_entries := acl_entries s;
                 document_table := document_table s;
                 event_log := event_log s
                              ++ [removed_event self document actor] |}.
Proof.
  intros H. destruct (pk self) as [k|] eqn:Hpk.
  - exists k. split; [done|].
    rewrite (remove_from_run self k) in H by done. by injection H as <-.
  - unfold remove_from, documents, bind in H. by rewrite Hpk in H.
Qed.

(** A queryset built by [get_documents] reads only the through table and
    the access control entries. *)
Lemma get_documents_run (self : Tag) (k : TagId) (user : User) (s : Store) :
  pk self = Some k →
  get_documents self user s
  = Ok (qs_filter_acl permission_document_view user (qs_related k), s).
Proof.
  intros Hpk. unfold get_documents, documents, bind. by rewrite Hpk.
Qed.

Lemma sample_tag_row : is_Some (tag_table sample_store !! 1).
Proof. by eexists. Qed.

Lemma sample_document_8 : 8 ∈ document_table sample_store.
Proof. apply list_elem_of_further, list_elem_of_here. Qed.

Lemma sample_document_7 : 7 ∈ document_table sample_store.
Proof. apply list_elem_of_here. Qed.

(** C2, as stated, does not hold for every tag and every document: on a
    tag that was never saved, and on a document that has no row, the user
    holds view permission on the document but [attach_to] raises and the
    document is not among those [get_documents] yields. *)
Lemma attach_to_unsaved_or_missing_not_listed :
  pk new_invoice_tag = None
  ∧ has_access sample_store permission_document_view 3 8 = true
  ∧ (do_ attach_to new_invoice_tag 8 (Some 3);
     do q <- get_documents new_invoice_tag 3;
     iterate q) sample_store = Raise ValueError
  ∧ (9 ∉ document_table sample_store)
  ∧ has_access sample_store permission_document_view 3 9 = true
  ∧ (do_ attach_to invoice_tag 9 (Some 3);
     do q <- get_documents invoice_tag 3;
     iterate q) sample_store = Raise IntegrityError.
Proof.
  split; [done|]. split; [by vm_compute|]. split; [by vm_compute|].
  split; [|split; by vm_compute].
  intros H. repeat (apply elem_of_cons in H as [H|H]; [discriminate H|]).
  by apply elem_of_nil in H.
Qed.

(** C2, amended: for every stored tag (a tag whose key has a row), every
    document that has a row and every user who holds view permission on
    the document, after [attach_to(document, actor)] the documents
    [get_documents(user)] yields include the document; for every saved
    tag, after [remove_from(document, actor)] they exclude it. *)
Theorem attach_includes_remove_excludes
    (self : Tag) (k : TagId) (document : DocumentId) (actor : option User)
    (user : User) (s : Store) :
  pk self = Some k →
  has_access s permission_document_view user document = true →
  (is_Some (tag_table s !! k) → document ∈ document_table s →
   ∃ rows s',
     (do_ attach_to self document actor;
      do q <- get_documents self user;
      iterate q) s = Ok (rows, s')
     ∧ document ∈ rows)
  ∧
  (∃ rows s',
     (do_ remove_from self document actor;
      do q <- get_documents self user;
      iterate q) s = Ok (rows, s')
     ∧ document ∉ rows).
Proof.
  intros Hpk Hacc. split.
  - intros Hrow Hdoc.
    unfold bind at 1. rewrite (attach_to_run _ k) by (done || by right).
    unfold bind. erewrite get_documents_run by done.
    eexists _, _. split; [reflexivity|].
    apply elem_of_qs_rows. simpl. split.
    + apply elem_of_added_rows.
    + unfold has_access in *. simpl. by rewrite Hacc.
  - unfold bind at 1. rewrite (remove_from_run _ k) by done.
    unfold bind. erewrite get_documents_run by done.
    eexists _, _. split; [reflexivity|].
    rewrite elem_of_qs_rows. simpl. intros [Hin _].
    by apply not_elem_of_removed_rows in Hin.
Qed.

Lemma attach_includes_remove_excludes_witness :
  (∃ rows s',
     (do_ attach_to invoice_tag 8 (Some 3);
      do q <- get_documents invoice_tag 3;
      iterate q) sample_store = Ok (rows, s')
     ∧ 8 ∈ rows)
  ∧
  (∃ rows s',
     (do_ remove_from invoice_tag 7 (Some 3);
      do q <- get_documents invoice_tag 3;
      iterate q) sample_store = Ok (rows, s')
     ∧ 7 ∉ rows).
Proof.
  split.
  - apply (attach_includes_remove_excludes
             invoice_tag 1 8 (Some 3) 3 sample_store).
    + reflexivity.
    + vm_compute. reflexivity.
    + apply sample_tag_row.
    + apply sample_document_8.
  - apply (attach_includes_remove_excludes
             invoice_tag 1 7 (Some 3) 3 sample_store).
    + reflexivity.
    + vm_compute. reflexivity.
Defined.

(** C4, as stated, does not hold for every tag and every document: for a
    document that has no row [attach_to] raises and commits no event, and
    on a tag that was never saved both methods raise and commit nothing. *)
Lemma attach_to_missing_document_commits_nothing :
  attach_to invoice_tag 9 (Some 3) sample_store = Raise IntegrityError
  ∧ event_log (exec (attach_to invoice_tag 9 (Some 3)) sample_store)
    = event_log sample_store
  ∧ attach_to new_invoice_tag 7 (Some 3) sample_store = Raise ValueError
  ∧ remove_from new_invoice_tag 7 (Some 3) sample_store = Raise ValueError.
Proof. repeat split; by vm_compute. Qed.

(** C4, amended: for every stored tag, every document that has a row and
    every actor, one call of [attach_to] appends exactly one "attached"
    event to the log; for every saved tag, document and actor, one call of
    [remove_from] appends exactly one "removed" event; the event has the
    tag as action object, the given actor as actor and the document as
    target. *)
Theorem attach_remove_emit_one_event
    (self : Tag) (k : TagId) (document : DocumentId) (actor : option User)
    (s : Store) :
  pk self = Some k →
  (is_Some (tag_table s !! k) → document ∈ document_table s →
   ∃ s', attach_to self document actor s = Ok (tt, s')
         ∧ event_log s'
           = event_log s
             ++ [{| ev_type := event_tag_attached;
                    ev_action_object := Some (ref_of_tag self);
                    ev_actor := actor;
                    ev_target := Some (ref_of_document document) |}])
  ∧
  (∃ s', remove_from self document actor s = Ok (tt, s')
         ∧ event_log s'
           = event_log s
             ++ [{| ev_type := event_tag_removed;
                    ev_action_object := Some (ref_of_tag self);
                    ev_actor := actor;
                    ev_target := Some (ref_of_document document) |}]).
Proof.
  intros Hpk. split.
  - intros Hrow Hdoc. eexists.
    split; [apply (attach_to_run self k); [done|by right]|done].
  - eexists. split; [by apply remove_from_run|done].
Qed.

Lemma attach_remove_emit_one_event_witness :
  (∃ s', attach_to invoice_tag 8 (Some 3) sample_store = Ok (tt, s')
         ∧ event_log s'
           = event_log sample_store
             ++ [{| ev_type := event_tag_attached;
                    ev_action_object := Some (ref_of_tag invoice_tag);
                    ev_actor := Some 3;
                    ev_target := Some (ref_of_document 8) |}])
  ∧
  (∃ s', remove_from invoice_tag 8 (Some 3) sample_store = Ok (tt, s')
         ∧ event_log s'
           = event_log sample_store
             ++ [{| ev_type := event_tag_removed;
                    ev_action_object := Some (ref_of_tag invoice_tag);
                    ev_actor := Some 3;
                    ev_target := Some (ref_of_document 8) |}]).
Proof.
  destruct (attach_remove_emit_one_event
              invoice_tag 1 8 (Some 3) sample_store eq_refl)
    as [Hattach Hremove].
  split; [|exact Hremove].
  apply Hattach; [apply sample_tag_row|apply sample_document_8].
Defined.

(** C5: [attach_to] is idempotent on the document set of the tag: when the
    document is already attached, the call leaves the through table, and
    with it the documents of the tag, as they were; no second row for the
    pair is created. *)
Theorem attach_to_idempotent
    (self : Tag) (k : TagId) (document : DocumentId) (actor : option User)
    (s : Store) :
  pk self = Some k →
  (k, document) ∈ tag_documents s →
  ∃ s', attach_to self document actor s = Ok (tt, s')
        ∧ tag_documents s' = tag_documents s
        ∧ qs_rows s' (qs_related k) = qs_rows s (qs_related k).
Proof.
  intros Hpk Hin. eexists.
  split; [apply (attach_to_run self k); [done|by left]|].
  simpl. unfold added_rows. by rewrite bool_decide_eq_true_2.
Qed.

Lemma attach_to_idempotent_witness :
  ∃ s', attach_to invoice_tag 7 None sample_store = Ok (tt, s')
        ∧ tag_documents s' = tag_documents sample_store
        ∧ qs_rows s' (qs_related 1) = qs_rows sample_store (qs_related 1).
Proof.
  apply (attach_to_idempotent invoice_tag 1 7 None sample_store).
  - reflexivity.
  - vm_compute. apply list_elem_of_here.
Defined.

(** C6, as stated, does not hold for every tag: a tag that was never saved
    has no relation to any document, and [remove_from] on it raises. *)
Lemma remove_from_unsaved_tag_raises :
  pk new_invoice_tag = None
  ∧ (∀ k, (k, 8) ∉ tag_documents sample_store)
  ∧ remove_from new_invoice_tag 8 None sample_store = Raise ValueError
  ∧ exec (remove_from new_invoice_tag 8 None) sample_store = sample_store.
Proof.
  split; [done|]. split; [|split; by vm_compute].
  intros k H. apply list_elem_of_singleton in H. discriminate H.
Qed.

(** C6, amended: for every saved tag (a tag with a primary key) and every
    document, [remove_from] on a pair that is not related does not raise
    and leaves the document set of the tag, and the whole through table,
    unchanged. *)
Theorem remove_from_absent_is_noop
    (self : Tag) (k : TagId) (document : DocumentId) (actor : option User)
    (s : Store) :
  pk self = Some k →
  (k, document) ∉ tag_documents s →
  ∃ s', remove_from self document actor s = Ok (tt, s')
        ∧ tag_documents s' = tag_documents s
        ∧ qs_rows s' (qs_related k) = qs_rows s (qs_related k).
Proof.
  intros Hpk Hnot. eexists. split; [by apply remove_from_run|].
  simpl. by rewrite removed_rows_absent.
Qed.

Lemma remove_from_absent_is_noop_witness :
  ∃ s', remove_from invoice_tag 8 None sample_store = Ok (tt, s')
        ∧ tag_documents s' = tag_documents sample_store
        ∧ qs_rows s' (qs_related 1) = qs_rows sample_store (qs_related 1).
Proof.
  apply (remove_from_absent_is_noop invoice_tag 1 8 None sample_store).
  - reflexivity.
  - vm_compute. intros H. apply list_elem_of_singleton in H. discriminate H.
Defined.

(** ** Repeated calls *)

Section Repeated.
Variables (self : Tag) (k : TagId) (document : DocumentId).
Variable actor : option User.
Hypothesis Hpk : pk self = Some k.

Lemma times_attach_to (n : nat) (s : Store) :
  can_attach s k document →
  ∃ s', times n (attach_to self document actor) s = Ok (tt, s')
        ∧ event_log s'
          = event_log s ++ replicate n (attached_event self document actor).
Proof using Hpk.
  revert s. induction n as [|n IH]; intros s Hcan.
  - exists s. split; [done|]. simpl. by rewrite app_nil_r.
  - simpl. unfold bind. rewrite (attach_to_run self k) by done.
    match goal with
    | |- ∃ s', times n _ ?mid = _ ∧ _ =>
        destruct (IH mid) as (s' & Hrun & Hlog)
    end.
    { left. simpl. apply elem_of_added_rows. }
    exists s'. split; [exact Hrun|].
    rewrite Hlog. simpl. by rewrite <- app_assoc.
Qed.

Lemma times_remove_from (n : nat) (s : Store) :
  ∃ s', times n (remove_from self document actor) s = Ok (tt, s')
        ∧ event_log s'
          = event_log s ++ replicate n (removed_event self document actor).
Proof using Hpk.
  revert s. induction n as [|n IH]; intros s.
  - exists s. split; [done|]. simpl. by rewrite app_nil_r.
  - simpl. unfold bind. rewrite (remove_from_run self k) by done.
    match goal with
    | |- ∃ s', times n _ ?mid = _ ∧ _ =>
        destruct (IH mid) as (s' & Hrun & Hlog)
    end.
    exists s'. split; [exact Hrun|].
    rewrite Hlog. simpl. by rewrite <- app_assoc.
Qed.
End Repeated.

(** C10, as stated, does not hold for every tag and every document: on a
    tag that was never saved, repeated calls of either method raise and
    commit no event; so do repeated calls of [attach_to] for a document
    that has no row. *)
Lemma repeated_calls_without_rows_commit_nothing :
  times 2 (attach_to new_invoice_tag 7 None) sample_store = Raise ValueError
  ∧ times 2 (remove_from new_invoice_tag 8 None) sample_store
    = Raise ValueError
  ∧ event_log (exec (times 2 (remove_from new_invoice_tag 8 None)) sample_store)
    = event_log sample_store
  ∧ times 2 (attach_to invoice_tag 9 None) sample_store = Raise IntegrityError
  ∧ event_log (exec (times 2 (attach_to invoice_tag 9 None)) sample_store)
    = event_log sample_store.
Proof. repeat split; by vm_compute. Qed.

(** C10, amended: for every saved tag, document and actor, [attach_to]
    commits its "attached" event also when the document was already
    attached, and [remove_from] its "removed" event also when the document
    was not attached, although the relation does not change.  For a stored
    tag and a document that has a row, [n] calls of [attach_to] in a row
    leave [n] events; for a saved tag, [n] calls of [remove_from] leave
    [n] events. *)
Theorem events_are_per_call
    (self : Tag) (k : TagId) (document : DocumentId) (actor : option User)
    (s : Store) :
  pk self = Some k →
  ((k, document) ∈ tag_documents s →
   ∃ s', attach_to self document actor s = Ok (tt, s')
         ∧ tag_documents s' = tag_documents s
         ∧ event_log s' = event_log s ++ [attached_event self document actor])
  ∧
  ((k, document) ∉ tag_documents s →
   ∃ s', remove_from self document actor s = Ok (tt, s')
         ∧ tag_documents s' = tag_documents s
         ∧ event_log s' = event_log s ++ [removed_event self document actor])
  ∧
  (is_Some (tag_table s !! k) → document ∈ document_table s →
   ∀ n, ∃ s', times n (attach_to self document actor) s = Ok (tt, s')
              ∧ event_log s'
                = event_log s
                  ++ replicate n (attached_event self document actor))
  ∧
  (∀ n, ∃ s', times n (remove_from self document actor) s = Ok (tt, s')
              ∧ event_log s'
                = event_log s
                  ++ replicate n (removed_event self document actor)).
Proof.
  intros Hpk. repeat split.
  - intros Hin. eexists.
    split; [apply (attach_to_run self k); [done|by left]|].
    simpl. unfold added_rows. by rewrite bool_decide_eq_true_2.
  - intros Hnot. eexists. split; [by apply remove_from_run|].
    simpl. by rewrite removed_rows_absent.
  - intros Hrow Hdoc n. apply (times_attach_to self k); [done|by right].
  - intros n. by apply (times_remove_from self k).
Qed.

Lemma events_are_per_call_witness :
  (∃ s', attach_to invoice_tag 7 (Some 3) sample_store = Ok (tt, s')
         ∧ tag_documents s' = tag_documents sample_store
         ∧ event_log s'
           = event_log sample_store ++ [attached_event invoice_tag 7 (Some 3)])
  ∧
  (∃ s', remove_from invoice_tag 8 (Some 3) sample_store = Ok (tt, s')
         ∧ tag_documents s' = tag_documents sample_store
         ∧ event_log s'
           = event_log sample_store ++ [removed_event invoice_tag 8 (Some 3)])
  ∧
  (∃ s', times 3 (attach_to invoice_tag 8 (Some 3)) sample_store = Ok (tt, s')
         ∧ event_log s'
           = event_log sample_store
             ++ replicate 3 (attached_event invoice_tag 8 (Some 3)))
  ∧
  (∃ s', times 3 (remove_from invoice_tag 7 (Some 3)) sample_store = Ok (tt, s')
         ∧ event_log s'
           = event_log sample_store
             ++ replicate 3 (removed_event invoice_tag 7 (Some 3))).
Proof.
  destruct (events_are_per_call invoice_tag 1 7 (Some 3) sample_store eq_refl)
    as (Hattach & _ & _ & Hm).
  destruct (events_are_per_call invoice_tag 1 8 (Some 3) sample_store eq_refl)
    as (_ & Hremove & Hn & _).
  split; [|split; [|split]].
  - apply Hattach. vm_compute. apply list_elem_of_here.
  - apply Hremove. vm_compute.
    intros H. apply list_elem_of_singleton in H. discriminate H.
  - apply (Hn sample_tag_row sample_document_8 3).
  - apply (Hm 3).
Defined.

(** ** Saving *)

Section Save.
Variables (self : Tag) (s : Store).

Lemma label_taken_spec :
  label_taken (tag_table s) (label self) (pk self) = true
  ↔ would_violate s self.
Proof.
  unfold label_taken, would_violate.
  rewrite bool_decide_eq_true, map_Exists_lookup. naive_solver.
Qed.

(** When the instance has no row, every row is another row. *)
Lemma label_taken_unstored :
  ¬ is_stored s self →
  label_taken (tag_table s) (label self) None
  = label_taken (tag_table s) (label self) (pk self).
Proof.
  intros Hns. unfold label_taken. apply bool_decide_ext.
  rewrite !map_Exists_lookup. split.
  - intros (k & r & Hk & _ & Hl). exists k, r. repeat split; [done| |done].
    intros Heq. apply Hns. exists k. split; [done|]. by rewrite Hk.
  - intros (k & r & Hk & _ & Hl). exists k, r. done.
Qed.

Lemma new_pk_fresh (tbl : gmap nat TagRow) : tbl !! new_pk tbl = None.
Proof.
  apply not_elem_of_dom. intros Hin.
  apply elem_of_elements, max_list_elem_of_le in Hin.
  unfold new_pk in Hin. lia.
Qed.

Lemma insert_key_fresh :
  ¬ is_stored s self → tag_table s !! insert_key self s = None.
Proof.
  intros Hns. unfold insert_key. destruct (pk self) as [k|] eqn:Hpk; simpl.
  - destruct (tag_table s !! k) eqn:Hk; [|done].
    exfalso. apply Hns. exists k. by rewrite Hk.
  - apply new_pk_fresh.
Qed.

Lemma save_insert_run :
  ¬ is_stored s self → ¬ would_violate s self →
  save self s
  = Ok (with_pk (insert_key self s) self,
        {| tag_table := <[insert_key self s := row_of self]> (tag_table s);
           tag_documents := tag_documents s;
           acl_entries := acl_entries s;
           document_table := document_table s;
           event_log := event_log s
                        ++ [created_event
                              (with_pk (insert_key self s) self)] |}).
Proof.
  intros Hns Hnv.
  pose proof (insert_key_fresh Hns) as Hfresh.
  assert (label_taken (tag_table s) (label self) None = false) as Hfree.
  { rewrite label_taken_unstored by done.
    apply not_true_is_false. by rewrite label_taken_spec. }
  unfold save, method_event_save, model_save, bind.
  assert (match pk self with
          | Some k => sql_update k (row_of self)
          | None => ret false
          end s = Ok (false, s)) as ->.
  { unfold insert_key in Hfresh. destruct (pk self) as [k|]; [|done].
    simpl in Hfresh. unfold sql_update. by rewrite Hfresh. }
  unfold sql_insert. fold (insert_key self s). simpl.
  rewrite Hfresh, Hfree. done.
Qed.

Lemma save_update_run (k : TagId) :
  pk self = Some k → is_Some (tag_table s !! k) → ¬ would_violate s self →
  save self s
  = Ok (self,
        {| tag_table := <[k := row_of self]> (tag_table s);
           tag_documents := tag_documents s;
           acl_entries := acl_entries s;
           document_table := document_table s;
           event_log := event_log s ++ [edited_event self] |}).
Proof.
  intros Hpk [row Hrow] Hnv.
  unfold save, method_event_save, model_save, bind, sql_update.
  rewrite Hpk, Hrow. simpl.
  assert (label_taken (tag_table s) (label self) (Some k) = false) as ->.
  { rewrite <- Hpk. apply not_true_is_false. by rewrite label_taken_spec. }
  done.
Qed.

Lemma save_violation : would_violate s self → save self s = Raise IntegrityError.
Proof.
  intros Hv.
  assert (label_taken (tag_table s) (label self) (pk self) = true) as Ht
    by (by apply label_taken_spec).
  unfold save, method_event_save, model_save, bind.
  destruct (pk self) as [k|] eqn:Hpk.
  - unfold sql_update. destruct (tag_table s !! k) as [row|] eqn:Hrow.
    + simpl. by rewrite Ht.
    + unfold sql_insert. simpl. rewrite Hrow.
      rewrite <- Hpk, <- label_taken_unstored in Ht; [by rewrite Ht|].
      intros (k' & Hk' & [? Hsome]). congruence.
  - unfold ret, sql_insert. simpl. rewrite Ht. by rewrite orb_true_r.
Qed.
End Save.

Lemma created_store_eq :
  created_store
  = {| tag_table := {[ 1 := row_of invoice_tag ]};
       tag_documents := [];
       acl_entries := [];
       document_table := [];
       event_log := [created_event invoice_tag] |}.
Proof. vm_compute. reflexivity. Qed.

Lemma invoice_tag_stored : is_stored created_store invoice_tag.
Proof. exists 1. split; [done|]. rewrite created_store_eq. by eexists. Qed.

Lemma invoice_tag_no_violation : ¬ would_violate created_store invoice_tag.
Proof. rewrite <- label_taken_spec. vm_compute. discriminate. Qed.

Lemma new_invoice_tag_unstored : ¬ is_stored empty_store new_invoice_tag.
Proof. intros (k & Hk & _). discriminate Hk. Qed.

Lemma new_invoice_tag_no_violation : ¬ would_violate empty_store new_invoice_tag.
Proof. rewrite <- label_taken_spec. vm_compute. discriminate. Qed.

(** C3, as stated, does not hold: a save of an existing tag whose fields are
    exactly those of its stored row still commits an "edited" event. *)
Lemma save_unchanged_still_emits_edited :
  pk invoice_tag = Some 1
  ∧ tag_table created_store !! 1 = Some (row_of invoice_tag)
  ∧ ∃ s', save invoice_tag created_store = Ok (invoice_tag, s')
          ∧ tag_table s' = tag_table created_store
          ∧ event_log s' = event_log created_store ++ [edited_event invoice_tag]
          ∧ event_log s' ≠ event_log created_store.
Proof.
  split; [done|]. split; [by rewrite created_store_eq|].
  eexists. split; [vm_compute; reflexivity|].
  split; [by vm_compute|]. split; [by vm_compute|].
  vm_compute. discriminate.
Qed.

(** C3, amended: a save that inserts the tag commits exactly one "created"
    event whose target is the tag itself; every save of an existing tag
    commits exactly one "edited" event whose target is the tag, whether or
    not its fields differ from the stored row; a save the store rejects
    raises and commits nothing. *)
Theorem save_emits_created_or_edited (self : Tag) (s : Store) :
  (¬ would_violate s self → ¬ is_stored s self →
   ∃ k s', save self s = Ok (with_pk k self, s')
           ∧ tag_table s !! k = None
           ∧ tag_table s' !! k = Some (row_of self)
           ∧ event_log s' = event_log s ++ [created_event (with_pk k self)])
  ∧
  (¬ would_violate s self → is_stored s self →
   ∃ s', save self s = Ok (self, s')
         ∧ event_log s' = event_log s ++ [edited_event self])
  ∧
  (would_violate s self →
   save self s = Raise IntegrityError ∧ exec (save self) s = s).
Proof.
  split; [|split].
  - intros Hnv Hns. eexists _, _.
    split; [by apply save_insert_run|].
    split; [by apply insert_key_fresh|].
    split; [apply lookup_insert_eq|done].
  - intros Hnv (k & Hpk & Hrow). eexists.
    split; [by apply (save_update_run self s k)|done].
  - intros Hv. unfold exec. by rewrite save_violation.
Qed.

Lemma save_emits_created_or_edited_witness :
  (∃ k s', save new_invoice_tag empty_store = Ok (with_pk k new_invoice_tag, s')
           ∧ tag_table empty_store !! k = None
           ∧ tag_table s' !! k = Some (row_of new_invoice_tag)
           ∧ event_log s'
             = event_log empty_store
               ++ [created_event (with_pk k new_invoice_tag)])
  ∧
  (∃ s', save invoice_tag created_store = Ok (invoice_tag, s')
         ∧ event_log s' = event_log created_store ++ [edited_event invoice_tag]).
Proof.
  split.
  - apply (save_emits_created_or_edited new_invoice_tag empty_store).
    + apply new_invoice_tag_no_violation.
    + apply new_invoice_tag_unstored.
  - apply (save_emits_created_or_edited invoice_tag created_store).
    + apply invoice_tag_no_violation.
    + apply invoice_tag_stored.
Defined.

(** ** Uniqueness of labels *)

Lemma labels_unique_empty (s : Store) : tag_table s = ∅ → labels_unique s.
Proof. intros He k1 k2 r1 r2 H1. rewrite He, lookup_empty in H1. done. Qed.

Lemma labels_unique_same_table (s s' : Store) :
  tag_table s' = tag_table s → labels_unique s → labels_unique s'.
Proof. unfold labels_unique. intros ->. done. Qed.

(** Writing the row of [self] under its own key, or under a fresh key when
    it has none, keeps labels unique as long as no other row holds its
    label. *)
Lemma labels_unique_write (self : Tag) (k : TagId) (s : Store) :
  labels_unique s → ¬ would_violate s self →
  pk self = Some k ∨ (pk self = None ∧ tag_table s !! k = None) →
  labels_unique (set_tag_table (<[k := row_of self]> (tag_table s)) s).
Proof.
  intros Hu Hnv Hk k1 k2 r1 r2. simpl.
  assert (∀ k' r', tag_table s !! k' = Some r' → k' ≠ k →
                   row_label r' ≠ label self) as Hother.
  { intros k' r' Hk' Hne Hl. apply Hnv. exists k', r'.
    split; [done|]. split; [|done].
    destruct Hk as [->|[-> _]]; congruence. }
  rewrite !lookup_insert_Some.
  intros [[<- <-]|[Hne1 H1]] [[<- <-]|[Hne2 H2]] Hl; try done.
  - exfalso. by apply (Hother k2 r2).
  - exfalso. by apply (Hother k1 r1).
  - by apply (Hu k1 k2 r1 r2).
Qed.

Lemma save_preserves_labels_unique (self r : Tag) (s s' : Store) :
  labels_unique s → save self s = Ok (r, s') → labels_unique s'.
Proof.
  intros Hu Hsave.
  destruct (decide (label_taken (tag_table s) (label self) (pk self) = true))
    as [Ht|Ht].
  { apply label_taken_spec, save_violation in Ht. congruence. }
  rewrite label_taken_spec in Ht.
  destruct (pk self) as [k|] eqn:Hpk.
  - destruct (tag_table s !! k) as [row|] eqn:Hrow.
    + rewrite (save_update_run self s k) in Hsave by (try done; by eexists).
      injection Hsave as _ <-. by apply (labels_unique_write self k s); auto.
    + assert (¬ is_stored s self) as Hns.
      { intros (k' & Hk' & [? Hsome]). congruence. }
      rewrite save_insert_run in Hsave by done.
      injection Hsave as _ <-. apply (labels_unique_write self _ s); auto.
      left. unfold insert_key. by rewrite Hpk.
  - assert (¬ is_stored s self) as Hns.
    { intros (k' & Hk' & _). congruence. }
    rewrite save_insert_run in Hsave by done.
    injection Hsave as _ <-. apply (labels_unique_write self _ s); auto.
    right. split; [done|]. by apply insert_key_fresh.
Qed.

Lemma step_preserves_labels_unique (s s' : Store) :
  labels_unique s → step s s' → labels_unique s'.
Proof.
  intros Hu Hstep. destruct Hstep as [self r s' H|self d a s' H|self d a s' H].
  - by eapply save_preserves_labels_unique.
  - apply attach_to_ok_inv in H as (k & _ & _ & ->).
    by apply (labels_unique_same_table s).
  - apply remove_from_ok_inv in H as (k & _ & ->).
    by apply (labels_unique_same_table s).
Qed.

Lemma reachable_labels_unique (s : Store) : reachable s → labels_unique s.
Proof.
  induction 1 as [s He|s s' _ IH Hstep].
  - by apply labels_unique_empty.
  - by eapply step_preserves_labels_unique.
Qed.

(** C7: in every store the module can produce, any two distinct stored tags
    have different labels; and a save that would break this is answered by
    the integrity error of the storage layer, which [save] lets through:
    the call raises [IntegrityError] and the store keeps its rows. *)
Theorem label_uniqueness_invariant (s : Store) :
  reachable s →
  (∀ k1 k2 r1 r2,
     tag_table s !! k1 = Some r1 → tag_table s !! k2 = Some r2 →
     k1 ≠ k2 → row_label r1 ≠ row_label r2)
  ∧
  (∀ self, would_violate s self →
           save self s = Raise IntegrityError ∧ exec (save self) s = s)
  ∧
  (∀ self r s', save self s = Ok (r, s') → reachable s' ∧ labels_unique s').
Proof.
  intros Hr. pose proof (reachable_labels_unique s Hr) as Hu.
  split; [|split].
  - intros k1 k2 r1 r2 H1 H2 Hne Hl. apply Hne. by apply (Hu k1 k2 r1 r2).
  - intros self Hv. unfold exec. by rewrite save_violation.
  - intros self r s' Hsave. split.
    + apply (reachable_step s); [done|]. by apply (step_save s self r).
    + by apply (save_preserves_labels_unique self r s).
Qed.

Lemma created_store_reachable : reachable created_store.
Proof.
  apply (reachable_step empty_store).
  - by apply reachable_init.
  - apply (step_save empty_store new_invoice_tag invoice_tag).
    vm_compute. reflexivity.
Defined.

Lemma label_uniqueness_invariant_witness :
  (∀ k1 k2 r1 r2,
     tag_table created_store !! k1 = Some r1 →
     tag_table created_store !! k2 = Some r2 →
     k1 ≠ k2 → row_label r1 ≠ row_label r2)
  ∧
  (∀ self, would_violate created_store self →
           save self created_store = Raise IntegrityError
           ∧ exec (save self) created_store = created_store)
  ∧
  (∀ self r s', save self created_store = Ok (r, s') →
                reachable s' ∧ labels_unique s').
Proof.
  apply (label_uniqueness_invariant created_store).
  apply created_store_reachable.
Defined.

(** A second tag with the label of the first is refused. *)
Example duplicate_label_refused :
  save {| class_of := TagClass; pk := None;
          label := "invoice"; color := "#00ff00" |} created_store
  = Raise IntegrityError.
Proof. vm_compute. reflexivity. Qed.

(** ** Ordering of listings *)

Section LabelOrder.
Lemma string_compare_le_trans (a b c : string) :
  String.compare a b ≠ Gt → String.compare b c ≠ Gt → String.compare a c ≠ Gt.
Proof.
  revert b c. induction a as [|x a IH]; intros [|y b] [|z c]; simpl; try done.
  unfold Ascii.compare.
  destruct (N.compare_spec (N_of_ascii x) (N_of_ascii y)) as [Hxy|Hxy|Hxy];
    destruct (N.compare_spec (N_of_ascii y) (N_of_ascii z)) as [Hyz|Hyz|Hyz];
    destruct (N.compare_spec (N_of_ascii x) (N_of_ascii z)) as [Hxz|Hxz|Hxz];
    try done; try lia.
  apply IH.
Qed.

Lemma string_compare_le_total (a b : string) :
  String.compare a b ≠ Gt ∨ String.compare b a ≠ Gt.
Proof.
  rewrite (String.compare_antisym a b).
  destruct (String.compare b a); simpl; auto.
Qed.

(** Both classes order their listings by the single key [label]. *)
Lemma ordering_compare_label (c : ModelClass) (a b : Tag) :
  ordering_compare (ordering c) a b = String.compare (label a) (label b).
Proof.
  assert (ordering c = ["label"]) as -> by (by destruct c).
  simpl. unfold field_compare.
  rewrite bool_decide_eq_true_2 by done.
  by destruct (String.compare (label a) (label b)).
Qed.

Lemma ordering_le_label (c : ModelClass) (a b : Tag) :
  ordering_le (ordering c) a b ↔ label_le a b.
Proof.
  unfold ordering_le, label_le, String.leb. rewrite ordering_compare_label.
  destruct (String.compare (label a) (label b)); split; done.
Qed.

#[local] Instance ordering_le_total (c : ModelClass) :
  Total (ordering_le (ordering c)).
Proof.
  intros a b. unfold ordering_le. rewrite !ordering_compare_label.
  apply string_compare_le_total.
Qed.

#[local] Instance ordering_le_trans (c : ModelClass) :
  Transitive (ordering_le (ordering c)).
Proof.
  intros x y z. unfold ordering_le. rewrite !ordering_compare_label.
  apply string_compare_le_trans.
Qed.

(** A listing holds exactly the stored rows. *)
Lemma objects_all_Permutation (c : ModelClass) (s : Store) :
  objects_all c s ≡ₚ instances c s.
Proof. apply merge_sort_Permutation. Qed.

Lemma objects_all_sorted (c : ModelClass) (s : Store) :
  StronglySorted (ordering_le (ordering c)) (objects_all c s).
Proof. apply StronglySorted_merge_sort; apply _. Qed.
End LabelOrder.

(** C8: whenever tags are listed, in every store, the sequence is sorted by
    label in ascending order: each listed tag's label is below or equal to
    the label of every tag listed after it.  The sequence is the stored
    tags: it is a rearrangement of the rows of the tag table, a tag is
    listed exactly when its row is stored, and there are as many listed
    tags as rows. *)
Theorem listing_sorted_by_label (c : ModelClass) (s : Store) :
  StronglySorted (fun a b => String.leb (label a) (label b) = true)
                 (objects_all c s)
  ∧ objects_all c s ≡ₚ instances c s
  ∧ (∀ t, t ∈ objects_all c s ↔
          ∃ k row, tag_table s !! k = Some row
                   ∧ t = {| class_of := c; pk := Some k;
                            label := row_label row; color := row_color row |})
  ∧ length (objects_all c s) = size (tag_table s).
Proof.
  split; [|split; [|split]].
  - pose proof (objects_all_sorted c s) as Hs.
    induction Hs as [|a l Hl IH Hall]; constructor; [done|].
    eapply Forall_impl; [exact Hall|].
    intros b Hab. by apply (ordering_le_label c).
  - apply objects_all_Permutation.
  - intros t. rewrite objects_all_Permutation. unfold instances.
    change (map ?f ?l) with (f <$> l). rewrite list_elem_of_fmap. split.
    + intros ([k row] & -> & Hin%elem_of_map_to_list). by exists k, row.
    + intros (k & row & Hk & ->). exists (k, row).
      split; [done|]. by apply elem_of_map_to_list.
  - rewrite objects_all_Permutation. unfold instances.
    by rewrite length_map, length_map_to_list.
Qed.

(** The listing of a store with three tags. *)
Example listing_example :
  map label
    (objects_all TagClass
       {| tag_table := {[ 1 := mkRow "urgent" "#f00"; 2 := mkRow "archive" "#0f0";
                          3 := mkRow "invoice" "#00f" ]};
          tag_documents := []; acl_entries := []; document_table := [];
          event_log := [] |})
  = ["archive"; "invoice"; "urgent"].
Proof. vm_compute. reflexivity. Qed.

(** ** The proxy class *)

(** Sorting commutes with a map that respects the order. *)
Section MergeSortMap.
Context {A B : Type} (R : relation A) (R' : relation B).
Context `{!∀ x y, Decision (R x y)} `{!∀ x y, Decision (R' x y)}.
Variable f : A → B.
Hypothesis Hf : ∀ x y, R x y ↔ R' (f x) (f y).

Local Abbreviation stack_fmap :=
  (fmap (M:=list) (fmap (M:=option) (fmap (M:=list) f))).

Lemma list_merge_fmap (l1 l2 : list A) :
  list_merge R' (f <$> l1) (f <$> l2) = f <$> list_merge R l1 l2.
Proof using Hf.
  revert l2. induction l1 as [|x1 l1 IH1]; intros l2; [by destruct l2|].
  induction l2 as [|x2 l2 IH2]; [done|].
  simpl. destruct (decide (R x1 x2)) as [Hr|Hr].
  - rewrite decide_True by (by apply Hf). simpl. f_equal. apply (IH1 (x2 :: l2)).
  - rewrite decide_False by (by rewrite <- Hf). simpl. f_equal. apply IH2.
Qed.

Lemma merge_list_to_stack_fmap (st : list (option (list A))) (l : list A) :
  merge_list_to_stack R' (stack_fmap st) (f <$> l)
  = stack_fmap (merge_list_to_stack R st l).
Proof using Hf.
  revert l. induction st as [|[l'|] st IH]; intros l; csimpl; [done| |done].
  f_equal. by rewrite list_merge_fmap, IH.
Qed.

Lemma merge_stack_fmap (st : list (option (list A))) :
  merge_stack R' (stack_fmap st) = f <$> merge_stack R st.
Proof using Hf.
  induction st as [|[l|] st IH]; csimpl; [done| |done].
  by rewrite IH, list_merge_fmap.
Qed.

Lemma merge_sort_fmap (l : list A) :
  merge_sort R' (f <$> l) = f <$> merge_sort R l.
Proof using Hf.
  unfold merge_sort.
  change (@nil (option (list B))) with (stack_fmap []).
  generalize (@nil (option (list A))) as st.
  induction l as [|x l IH]; intros st; csimpl.
  - apply merge_stack_fmap.
  - rewrite <- IH. f_equal. apply (merge_list_to_stack_fmap st [x]).
Qed.
End MergeSortMap.

(** The order of a listing does not look at the class of the instances. *)
Lemma ordering_le_as_class (c : ModelClass) (keys : list string) (a b : Tag) :
  ordering_le keys a b ↔ ordering_le keys (as_class c a) (as_class c b).
Proof.
  unfold ordering_le.
  assert (ordering_compare keys (as_class c a) (as_class c b)
          = ordering_compare keys a b) as ->; [|done].
  induction keys as [|key keys IH]; [done|].
  simpl. rewrite IH.
  assert (key_compare key (as_class c a) (as_class c b) = key_compare key a b)
    as ->; [|done].
  unfold key_compare. by destruct key as [|[[] [] [] [] [] [] [] []] key].
Qed.

Lemma objects_all_as_class (s : Store) :
  map (as_class TagClass) (objects_all DocumentTagClass s)
  = objects_all TagClass s.
Proof.
  unfold objects_all.
  change (ordering DocumentTagClass) with (ordering TagClass).
  rewrite <- (merge_sort_fmap (ordering_le (ordering TagClass))
                             (ordering_le (ordering TagClass))
                             (as_class TagClass)).
  - f_equal. unfold instances. by rewrite <- list_fmap_compose.
  - intros a b. apply ordering_le_as_class.
Qed.

Lemma save_as_class (c : ModelClass) (self : Tag) (s : Store) :
  same_save_result (save (as_class c self) s) (save self s).
Proof.
  assert (ref_model (ref_of_tag (as_class c self)) = ref_model (ref_of_tag self))
    as Hm.
  { simpl. by destruct c, (class_of self). }
  assert (∀ t, resolve_target "self" (with_pk t (as_class c self))
               = resolve_target "self" (with_pk t self)) as Hnew.
  { intros t. unfold resolve_target, ref_of_tag. simpl in *. by rewrite Hm. }
  assert (resolve_target "self" (as_class c self) = resolve_target "self" self)
    as Hold.
  { unfold resolve_target, ref_of_tag. simpl in *. by rewrite Hm. }
  unfold save, method_event_save, model_save, bind, sql_update, sql_insert, ret.
  simpl. destruct (pk self) as [k|]; simpl.
  - destruct (tag_table s !! k) as [row|] eqn:Hrow; simpl.
    + destruct (label_taken _ _ _); simpl; [done|].
      unfold commit. simpl. split; [|done].
      by rewrite Hold.
    + destruct (bool_decide _ || label_taken _ _ _); simpl; [done|].
      unfold commit. simpl. split; [|done].
      by rewrite Hnew.
  - destruct (bool_decide _ || label_taken _ _ _); simpl; [done|].
    unfold commit. simpl. split; [|done].
    by rewrite Hnew.
Qed.

Lemma ref_of_tag_as_class (c : ModelClass) (self : Tag) :
  ref_of_tag (as_class c self) = ref_of_tag self.
Proof. unfold ref_of_tag. simpl. by destruct c, (class_of self). Qed.

Lemma as_class_fields (t1 t2 : Tag) :
  as_class TagClass t1 = as_class TagClass t2 → t1 = as_class (class_of t1) t2.
Proof.
  destruct t1 as [c1 p1 l1 col1], t2 as [c2 p2 l2 col2].
  unfold as_class. simpl. by intros [= -> -> ->].
Qed.

(** Every call on an instance of either class runs the body [Tag] gives to
    the method. *)
Lemma invoke_Tag_body (self : Tag) (call : Call) (s : Store) :
  invoke self call s = Tag_body call self s.
Proof. unfold invoke. by destruct (class_of self), call. Qed.

Lemma Tag_body_as_class (c : ModelClass) (self : Tag) (call : Call) (s : Store) :
  same_outcome erase_class (Tag_body call (as_class c self) s)
                           (Tag_body call self s).
Proof.
  destruct call as [d u|d u|u|u|]; unfold Tag_body, bind.
  - assert (attach_to (as_class c self) d u s = attach_to self d u s) as ->.
    { unfold attach_to. by rewrite ref_of_tag_as_class. }
    destruct (attach_to self d u s) as [[[] s']|e]; by simpl.
  - assert (remove_from (as_class c self) d u s = remove_from self d u s) as ->.
    { unfold remove_from. by rewrite ref_of_tag_as_class. }
    destruct (remove_from self d u s) as [[[] s']|e]; by simpl.
  - change (get_documents (as_class c self) u s) with (get_documents self u s).
    destruct (get_documents self u s) as [[q s']|e]; by simpl.
  - change (get_document_count (as_class c self) u s)
      with (get_document_count self u s).
    destruct (get_document_count self u s) as [[n s']|e]; by simpl.
  - pose proof (save_as_class c self s) as Hsave.
    unfold same_save_result in Hsave.
    destruct (save (as_class c self) s) as [[t1 s1]|e1],
             (save self s) as [[t2 s2]|e2]; simpl in *; try done.
    destruct Hsave as [-> Ht]. split; [done|]. by rewrite Ht.
Qed.

Lemma invoke_same_fields (t1 t2 : Tag) (call : Call) (s : Store) :
  as_class TagClass t1 = as_class TagClass t2 →
  same_outcome erase_class (invoke t1 call s) (invoke t2 call s).
Proof.
  intros Hf. rewrite !invoke_Tag_body.
  rewrite (as_class_fields t1 t2 Hf). apply Tag_body_as_class.
Qed.

Lemma instance_after_same_fields (t1 t2 : Tag) (v1 v2 : Value) :
  as_class TagClass t1 = as_class TagClass t2 →
  erase_class v1 = erase_class v2 →
  as_class TagClass (instance_after t1 v1)
  = as_class TagClass (instance_after t2 v2).
Proof.
  intros Hf Hv. destruct v1, v2; simpl in *; try done.
  congruence.
Qed.

(** Sequences of calls on two instances with the same field values have
    the same outcome, whatever the classes of the instances. *)
Lemma run_calls_same_fields (calls : list Call) (t1 t2 : Tag) (s : Store) :
  as_class TagClass t1 = as_class TagClass t2 →
  same_outcome (map erase_class) (run_calls t1 calls s) (run_calls t2 calls s).
Proof.
  revert t1 t2 s. induction calls as [|call calls IH]; intros t1 t2 s Hf.
  { by simpl. }
  simpl. unfold bind.
  pose proof (invoke_same_fields t1 t2 call s Hf) as Hstep.
  destruct (invoke t1 call s) as [[v1 s1]|e1],
           (invoke t2 call s) as [[v2 s2]|e2]; simpl in Hstep; try done.
  destruct Hstep as [-> Hv].
  pose proof (IH (instance_after t1 v1) (instance_after t2 v2) s2
                 (instance_after_same_fields t1 t2 v1 v2 Hf Hv)) as Hrest.
  destruct (run_calls (instance_after t1 v1) calls s2) as [[vs1 s1']|e1],
           (run_calls (instance_after t2 v2) calls s2) as [[vs2 s2']|e2];
    simpl in *; try done.
  destruct Hrest as [-> Hvs]. split; [done|]. by rewrite Hv, Hvs.
Qed.

(** C9: [DocumentTag] is observationally equivalent to [Tag].  Its body
    declares no field and no method and its rows live in the table of
    [Tag], where a listing finds the same rows in the same order.  Every
    operation called on a [DocumentTag] resolves to the method [Tag]
    defines and runs that body; [attach_to], [remove_from],
    [get_documents], [get_document_count] and [save] give the same result
    and the same store on an instance seen as a [DocumentTag] as on the
    same instance seen as a [Tag]; and so does every sequence of calls. *)
Theorem DocumentTag_equivalent_to_Tag
    (self : Tag) (document : DocumentId) (actor : option User) (user : User)
    (s : Store) :
  let tag := as_class TagClass self in
  let document_tag := as_class DocumentTagClass self in
  cd_fields (declaration DocumentTagClass) = []
  ∧ cd_methods (declaration DocumentTagClass) = []
  ∧ all_fields DocumentTagClass = all_fields TagClass
  ∧ db_table DocumentTagClass = db_table TagClass
  ∧ map (as_class TagClass) (instances DocumentTagClass s) = instances TagClass s
  ∧ map (as_class TagClass) (objects_all DocumentTagClass s)
    = objects_all TagClass s
  ∧ (∀ call, resolve_method DocumentTagClass (method_of call) = Some TagClass)
  ∧ invoke document_tag (call_attach_to document actor) s
    = (do_ attach_to tag document actor; ret v_none) s
  ∧ invoke document_tag (call_remove_from document actor) s
    = (do_ remove_from tag document actor; ret v_none) s
  ∧ invoke document_tag (call_get_documents user) s
    = (do q <- get_documents tag user; ret (v_queryset q)) s
  ∧ invoke document_tag (call_get_document_count user) s
    = (do n <- get_document_count tag user; ret (v_count n)) s
  ∧ same_outcome erase_class
      (invoke document_tag call_save s)
      ((do t <- save tag; ret (v_instance t)) s)
  ∧ (∀ call, same_outcome erase_class (invoke document_tag call s)
                                      (invoke tag call s))
  ∧ (∀ calls, same_outcome (map erase_class) (run_calls document_tag calls s)
                                             (run_calls tag calls s)).
Proof.
  intros tag document_tag. subst tag document_tag.
  split; [done|]. split; [done|]. split; [done|]. split; [done|].
  split; [unfold instances; by rewrite <- list_fmap_compose|].
  split; [apply objects_all_as_class|].
  split; [intros call; by destruct call|].
  split.
  { rewrite invoke_Tag_body. unfold Tag_body, bind, attach_to.
    by rewrite (ref_of_tag_as_class DocumentTagClass self),
               (ref_of_tag_as_class TagClass self). }
  split.
  { rewrite invoke_Tag_body. unfold Tag_body, bind, remove_from.
    by rewrite (ref_of_tag_as_class DocumentTagClass self),
               (ref_of_tag_as_class TagClass self). }
  split; [by rewrite invoke_Tag_body|]. split; [by rewrite invoke_Tag_body|].
  split.
  { rewrite invoke_Tag_body.
    apply (Tag_body_as_class DocumentTagClass (as_class TagClass self)
                             call_save s). }
  split.
  - intros call. by apply invoke_same_fields.
  - intros calls. by apply run_calls_same_fields.
Qed.

(** A tag created and used through [DocumentTag]. *)
Example document_tag_calls :
  run_calls {| class_of := DocumentTagClass; pk := None;
               label := "invoice"; color := "#ff0000" |}
            [call_save; call_get_document_count 3]
            {| tag_table := ∅; tag_documents := []; acl_entries := [];
               document_table := [7]; event_log := [] |}
  = Ok ([v_instance {| class_of := DocumentTagClass; pk := Some 1;
                       label := "invoice"; color := "#ff0000" |};
         v_count 0],
        {| tag_table := {[ 1 := mkRow "invoice" "#ff0000" ]};
           tag_documents := []; acl_entries := []; document_table := [7];
           event_log := [{| ev_type := event_tag_created;
                            ev_action_object := None; ev_actor := None;
                            ev_target := Some {| ref_model := "tag";
                                                 ref_pk := Some 1 |} |}] |}).
Proof. vm_compute. reflexivity. Qed.

(** * Further properties of the methods *)

(** ** The relation under [attach_to] and [remove_from] *)

Lemma filter_ne_absent {A} `{EqDecision A} (x : A) (l : list A) :
  x ∉ l → filter (fun y => y ≠ x) l = l.
Proof.
  induction l as [|y l IH]; [done|].
  rewrite not_elem_of_cons. intros [Hne Hl].
  rewrite filter_cons, decide_True by congruence. by rewrite IH.
Qed.

Lemma filter_ne_idemp {A} `{EqDecision A} (x : A) (l : list A) :
  filter (fun y => y ≠ x) (filter (fun y => y ≠ x) l)
  = filter (fun y => y ≠ x) l.
Proof.
  apply filter_ne_absent. rewrite list_elem_of_filter. tauto.
Qed.

(** When [attach_to] succeeds on a document that was not attached, a
    following [remove_from] succeeds and gives back the through table as
    it was before the two calls; tags, documents and access entries are
    untouched, and the log has gained an "attached" and then a "removed"
    event. *)
Theorem attach_then_remove_restores_relation
    (self : Tag) (k : TagId) (document : DocumentId)
    (actor1 actor2 : option User) (s s1 : Store) :
  pk self = Some k →
  (k, document) ∉ tag_documents s →
  attach_to self document actor1 s = Ok (tt, s1) →
  ∃ s', remove_from self document actor2 s1 = Ok (tt, s')
        ∧ tag_documents s' = tag_documents s
        ∧ tag_table s' = tag_table s
        ∧ acl_entries s' = acl_entries s
        ∧ document_table s' = document_table s
        ∧ event_log s'
          = event_log s ++ [attached_event self document actor1;
                            removed_event self document actor2].
Proof.
  intros Hpk Hnot Hattach.
  apply attach_to_ok_inv in Hattach as (k' & Hk' & _ & ->).
  assert (k' = k) as -> by congruence.
  rewrite (remove_from_run self k) by done.
  eexists. split; [reflexivity|]. simpl.
  split; [|split; [done|split; [done|split; [done|by rewrite <- app_assoc]]]].
  unfold removed_rows, added_rows. simpl.
  rewrite bool_decide_eq_false_2 by done.
  rewrite filter_app, filter_ne_absent by done.
  rewrite filter_cons, decide_False by (intros H; by apply H). simpl.
  by rewrite app_nil_r.
Qed.

Lemma sample_attach :
  attach_to invoice_tag 8 (Some 3) sample_store = Ok (tt, attached_store).
Proof. vm_compute. reflexivity. Qed.

Lemma sample_remove :
  remove_from invoice_tag 7 None sample_store = Ok (tt, removed_store).
Proof. vm_compute. reflexivity. Qed.

Lemma sample_not_attached_8 : (1, 8) ∉ tag_documents sample_store.
Proof. intros H. apply list_elem_of_singleton in H. discriminate H. Qed.

Lemma attach_then_remove_restores_relation_witness :
  ∃ s', remove_from invoice_tag 8 None attached_store = Ok (tt, s')
        ∧ tag_documents s' = tag_documents sample_store
        ∧ tag_table s' = tag_table sample_store
        ∧ acl_entries s' = acl_entries sample_store
        ∧ document_table s' = document_table sample_store
        ∧ event_log s'
          = event_log sample_store
            ++ [attached_event invoice_tag 8 (Some 3);
                removed_event invoice_tag 8 None].
Proof.
  apply (attach_then_remove_restores_relation
           invoice_tag 1 8 (Some 3) None sample_store attached_store).
  - reflexivity.
  - apply sample_not_attached_8.
  - apply sample_attach.
Defined.

(** [attach_to] and [remove_from] are idempotent on the relation: when a
    call has succeeded, a second call for the same document succeeds,
    leaves the through table as the first call left it, and adds its own
    event. *)
Theorem attach_remove_twice_same_relation
    (self : Tag) (document : DocumentId) (actor1 actor2 : option User)
    (s s1 : Store) :
  (attach_to self document actor1 s = Ok (tt, s1) →
   ∃ s2, attach_to self document actor2 s1 = Ok (tt, s2)
         ∧ tag_documents s2 = tag_documents s1
         ∧ event_log s2
           = event_log s1 ++ [attached_event self document actor2])
  ∧
  (remove_from self document actor1 s = Ok (tt, s1) →
   ∃ s2, remove_from self document actor2 s1 = Ok (tt, s2)
         ∧ tag_documents s2 = tag_documents s1
         ∧ event_log s2
           = event_log s1 ++ [removed_event self document actor2]).
Proof.
  split.
  - intros (k & Hpk & _ & ->)%attach_to_ok_inv.
    eexists. split.
    + apply (attach_to_run self k); [done|].
      left. simpl. apply elem_of_added_rows.
    + simpl. split; [|done]. unfold added_rows at 1. simpl.
      rewrite bool_decide_eq_true_2; [done|]. apply elem_of_added_rows.
  - intros (k & Hpk & ->)%remove_from_ok_inv.
    eexists. split; [by apply (remove_from_run self k)|].
    simpl. split; [|done]. unfold removed_rows. simpl. apply filter_ne_idemp.
Qed.

Lemma attach_remove_twice_same_relation_witness :
  (∃ s2, attach_to invoice_tag 8 None attached_store = Ok (tt, s2)
         ∧ tag_documents s2 = tag_documents attached_store
         ∧ event_log s2
           = event_log attached_store ++ [attached_event invoice_tag 8 None])
  ∧
  (∃ s2, remove_from invoice_tag 7 (Some 3) removed_store = Ok (tt, s2)
         ∧ tag_documents s2 = tag_documents removed_store
         ∧ event_log s2
           = event_log removed_store
             ++ [removed_event invoice_tag 7 (Some 3)]).
Proof.
  split.
  - apply (attach_remove_twice_same_relation
             invoice_tag 8 (Some 3) None sample_store attached_store).
    apply sample_attach.
  - apply (attach_remove_twice_same_relation
             invoice_tag 7 None (Some 3) sample_store removed_store).
    apply sample_remove.
Defined.

Lemma filter_other_tag_added (k k' : TagId) (document : DocumentId)
    (rows : list (TagId * DocumentId)) :
  k' ≠ k →
  filter (fun r => fst r = k') (rows ++ [(k, document)])
  = filter (fun r => fst r = k') rows.
Proof.
  intros Hne. rewrite filter_app, filter_cons.
  rewrite decide_False by (simpl; congruence). simpl. by rewrite app_nil_r.
Qed.

Lemma filter_other_tag_removed (k k' : TagId) (document : DocumentId)
    (rows : list (TagId * DocumentId)) :
  k' ≠ k →
  filter (fun r => fst r = k') (filter (fun r => r ≠ (k, document)) rows)
  = filter (fun r => fst r = k') rows.
Proof.
  intros Hne. induction rows as [|[t d] rows IH]; [done|].
  rewrite (filter_cons (fun r => r ≠ (k, document))).
  destruct (decide ((t, d) ≠ (k, document))) as [Hr|Hr].
  - rewrite !filter_cons. simpl. destruct (decide (t = k')); by rewrite IH.
  - rewrite IH, filter_cons. simpl.
    rewrite decide_False; [done|]. intros ->. apply Hr. congruence.
Qed.

(** A successful [attach_to] or [remove_from] touches one pair only: the
    tags, the documents and the access entries stay as they are, every
    other (tag, document) pair is related after the call exactly when it
    was before, and the documents of every other tag are listed as
    before. *)
Theorem attach_remove_touch_one_pair
    (self : Tag) (k : TagId) (document : DocumentId) (actor : option User)
    (s s' : Store) :
  pk self = Some k →
  attach_to self document actor s = Ok (tt, s')
  ∨ remove_from self document actor s = Ok (tt, s') →
  tag_table s' = tag_table s
  ∧ acl_entries s' = acl_entries s
  ∧ document_table s' = document_table s
  ∧ (∀ r, r ≠ (k, document) → r ∈ tag_documents s' ↔ r ∈ tag_documents s)
  ∧ (∀ k', k' ≠ k → qs_rows s' (qs_related k') = qs_rows s (qs_related k')).
Proof.
  intros Hpk [H|H].
  - apply attach_to_ok_inv in H as (k' & Hk' & _ & ->).
    assert (k' = k) as -> by congruence. simpl.
    split; [done|]. split; [done|]. split; [done|]. unfold added_rows. split.
    + intros r Hr. case_bool_decide; [done|].
      rewrite elem_of_app, list_elem_of_singleton. tauto.
    + intros k' Hne. case_bool_decide; [done|].
      by rewrite filter_other_tag_added.
  - apply remove_from_ok_inv in H as (k' & Hk' & ->).
    assert (k' = k) as -> by congruence. simpl.
    split; [done|]. split; [done|]. split; [done|]. unfold removed_rows. split.
    + intros r Hr. rewrite list_elem_of_filter. tauto.
    + intros k' Hne. by rewrite filter_other_tag_removed.
Qed.

Lemma attach_remove_touch_one_pair_witness :
  tag_table attached_store = tag_table sample_store
  ∧ acl_entries attached_store = acl_entries sample_store
  ∧ document_table attached_store = document_table sample_store
  ∧ (∀ r, r ≠ (1, 8) →
          r ∈ tag_documents attached_store ↔ r ∈ tag_documents sample_store)
  ∧ (∀ k', k' ≠ 1 →
           qs_rows attached_store (qs_related k')
           = qs_rows sample_store (qs_related k')).
Proof.
  apply (attach_remove_touch_one_pair
           invoice_tag 1 8 (Some 3) sample_store attached_store).
  - reflexivity.
  - left. apply sample_attach.
Defined.

(** ** Inverting successful calls *)

Lemma is_stored_dec (s : Store) (self : Tag) :
  is_stored s self ∨ ¬ is_stored s self.
Proof.
  destruct (pk self) as [k|] eqn:Hpk.
  - destruct (tag_table s !! k) as [row|] eqn:Hrow.
    + left. exists k. by rewrite Hrow.
    + right. intros (k' & Hk' & [? Hsome]). congruence.
  - right. intros (k' & Hk' & _). congruence.
Qed.

Lemma would_violate_dec (s : Store) (self : Tag) :
  would_violate s self ∨ ¬ would_violate s self.
Proof.
  rewrite <- label_taken_spec.
  destruct (label_taken (tag_table s) (label self) (pk self)); auto.
Qed.

Lemma with_pk_own (self : Tag) (k : TagId) :
  pk self = Some k → with_pk k self = self.
Proof. destruct self as [c p l col]. simpl. by intros ->. Qed.

(** What a successful [save] did: it wrote the row of the instance under
    one key, the instance's own when it had one, and logged one event. *)
Lemma save_ok_inv (self r : Tag) (s s' : Store) :
  save self s = Ok (r, s') →
  ¬ would_violate s self
  ∧ ∃ k e, r = with_pk k self
           ∧ (pk self = Some k ∨ (pk self = None ∧ tag_table s !! k = None))
           ∧ s' = {| tag_table := <[k := row_of self]> (tag_table s);
                     tag_documents := tag_documents s;
                     acl_entries := acl_entries s;
                     document_table := document_table s;
                     event_log := event_log s ++ [e] |}.
Proof.
  intros H.
  destruct (would_violate_dec s self) as [Hv|Hnv].
  { rewrite save_violation in H by done. discriminate H. }
  split; [done|].
  destruct (is_stored_dec s self) as [(k & Hpk & Hrow)|Hns].
  - rewrite (save_update_run self s k) in H by done.
    injection H as <- <-. exists k, (edited_event self).
    split; [by rewrite with_pk_own|]. split; [by left|done].
  - rewrite save_insert_run in H by done.
    injection H as <- <-.
    exists (insert_key self s),
           (created_event (with_pk (insert_key self s) self)).
    split; [done|]. split; [|done].
    pose proof (insert_key_fresh self s Hns) as Hfresh.
    unfold insert_key in *. destruct (pk self); simpl in *; auto.
Qed.

(** ** No duplicates in the relation *)

Lemma NoDup_related_rows (t : TagId) (rows : list (TagId * DocumentId)) :
  NoDup rows → NoDup (map snd (filter (fun r => fst r = t) rows)).
Proof.
  intros Hnd. apply (NoDup_fmap_2_strong snd).
  - intros [t1 d1] [t2 d2].
    rewrite !list_elem_of_filter. simpl. intros [-> _] [-> _] ->. done.
  - by apply NoDup_filter.
Qed.

Lemma NoDup_qs_rows (s : Store) (q : QuerySet) :
  NoDup (tag_documents s) → NoDup (qs_rows s q).
Proof.
  intros Hnd. induction q as [t|p u q IH]; simpl.
  - by apply NoDup_related_rows.
  - by apply NoDup_filter.
Qed.

Lemma NoDup_added_rows (k : TagId) (document : DocumentId) (s : Store) :
  NoDup (tag_documents s) → NoDup (added_rows k document s).
Proof.
  intros Hnd. unfold added_rows. case_bool_decide as Hin; [done|].
  apply NoDup_app. split; [done|]. split; [|apply NoDup_singleton].
  intros r Hr ->%list_elem_of_singleton. done.
Qed.

(** A through table without duplicate rows stays so under every call of
    the module, and then no queryset lists a document twice. *)
Theorem relation_stays_duplicate_free (s s' : Store) :
  NoDup (tag_documents s) → step s s' →
  NoDup (tag_documents s') ∧ ∀ q, NoDup (qs_rows s' q).
Proof.
  intros Hnd Hstep.
  assert (NoDup (tag_documents s')) as Hnd'.
  { destruct Hstep as [self r s' H|self d a s' H|self d a s' H].
    - apply save_ok_inv in H as (_ & k & e & _ & _ & ->). done.
    - apply attach_to_ok_inv in H as (k & _ & _ & ->). simpl.
      by apply NoDup_added_rows.
    - apply remove_from_ok_inv in H as (k & _ & ->). simpl.
      by apply NoDup_filter. }
  split; [done|]. intros q. by apply NoDup_qs_rows.
Qed.

Lemma relation_stays_duplicate_free_witness :
  ∃ s', attach_to invoice_tag 8 None sample_store = Ok (tt, s')
        ∧ NoDup (tag_documents s') ∧ ∀ q, NoDup (qs_rows s' q).
Proof.
  eexists. split; [vm_compute; reflexivity|].
  apply (relation_stays_duplicate_free sample_store).
  - vm_compute. apply NoDup_singleton.
  - apply (step_attach_to sample_store invoice_tag 8 None).
    vm_compute. reflexivity.
Defined.

(** ** Counting after a change of the relation *)

Lemma get_document_count_run (self : Tag) (k : TagId) (user : User) (s : Store) :
  pk self = Some k →
  get_document_count self user s = Ok (qs_count s (documents_for k user), s).
Proof.
  intros Hpk. unfold get_document_count, documents, bind. by rewrite Hpk.
Qed.

Lemma qs_rows_documents_for (s s' : Store) (k : TagId) (user : User) :
  acl_entries s' = acl_entries s →
  qs_rows s' (documents_for k user)
  = filter (fun d => has_access s permission_document_view user d = true)
           (map snd (filter (fun r => fst r = k) (tag_documents s'))).
Proof.
  intros He. simpl. apply list_filter_iff. intros d.
  unfold has_access. by rewrite He.
Qed.

(** The count a user sees after a successful [attach_to]: unchanged when
    the document was attached already, one more when it was not and the
    user may view it, unchanged when the user may not. *)
Theorem attach_to_changes_count
    (self : Tag) (k : TagId) (document : DocumentId) (actor : option User)
    (user : User) (s s' : Store) :
  pk self = Some k →
  attach_to self document actor s = Ok (tt, s') →
  ∃ n, get_document_count self user s = Ok (n, s)
       ∧ get_document_count self user s'
         = Ok (if bool_decide ((k, document) ∈ tag_documents s) then n
               else if has_access s permission_document_view user document
                    then S n else n, s').
Proof.
  intros Hpk Hattach.
  apply attach_to_ok_inv in Hattach as (k' & Hk' & _ & ->).
  assert (k' = k) as -> by congruence.
  eexists. split; [by apply get_document_count_run|].
  rewrite (get_document_count_run self k) by done.
  do 2 f_equal. rewrite !qs_count_length.
  rewrite (qs_rows_documents_for s _ k user) by done.
  rewrite (qs_rows_documents_for s s k user) by done. simpl.
  unfold added_rows. case_bool_decide as Hin; [done|].
  rewrite filter_app, map_app, filter_app, length_app.
  rewrite (filter_cons _ (k, document)), decide_True by done. simpl.
  rewrite filter_cons.
  destruct (has_access s permission_document_view user document).
  - rewrite decide_True by done. simpl. lia.
  - rewrite decide_False by done. simpl. lia.
Qed.

Lemma attach_to_changes_count_witness :
  ∃ n, get_document_count invoice_tag 3 sample_store = Ok (n, sample_store)
       ∧ get_document_count invoice_tag 3 attached_store
         = Ok (if bool_decide ((1, 8) ∈ tag_documents sample_store) then n
               else if has_access sample_store permission_document_view 3 8
                    then S n else n, attached_store).
Proof.
  apply (attach_to_changes_count
           invoice_tag 1 8 (Some 3) 3 sample_store attached_store).
  - reflexivity.
  - apply sample_attach.
Defined.

(** The user of [sample_store] sees one document before and two after. *)
Example attach_to_changes_count_example :
  get_document_count invoice_tag 3 sample_store = Ok (1, sample_store)
  ∧ get_document_count invoice_tag 3 attached_store = Ok (2, attached_store).
Proof. split; vm_compute; reflexivity. Qed.

Lemma related_rows_removed (k : TagId) (document : DocumentId)
    (rows : list (TagId * DocumentId)) :
  map snd (filter (fun r => fst r = k)
                  (filter (fun r => r ≠ (k, document)) rows))
  = filter (fun d => d ≠ document)
           (map snd (filter (fun r => fst r = k) rows)).
Proof.
  induction rows as [|[t d] rows IH]; [done|].
  rewrite (filter_cons (fun r => r ≠ (k, document))).
  rewrite (filter_cons (fun r => fst r = k) (t, d)). simpl.
  destruct (decide (t = k)) as [->|Ht].
  - simpl. rewrite (filter_cons (fun d0 => d0 ≠ document)).
    destruct (decide (d = document)) as [->|Hd].
    + rewrite decide_False by (intros H; by apply H).
      rewrite decide_False by (intros H; by apply H). done.
    + rewrite decide_True by congruence.
      rewrite filter_cons, decide_True by done. simpl.
      rewrite decide_True by done. by rewrite IH.
  - rewrite decide_True by congruence.
    rewrite filter_cons, decide_False by done. done.
Qed.

(** After [remove_from], what [get_documents] lists for any user is what it
    listed before without the removed document, in the same order; the
    count cannot grow. *)
Theorem remove_from_filters_documents
    (self : Tag) (k : TagId) (document : DocumentId) (actor : option User)
    (user : User) (s : Store) :
  pk self = Some k →
  ∃ q s', get_documents self user s = Ok (q, s)
          ∧ remove_from self document actor s = Ok (tt, s')
          ∧ get_documents self user s' = Ok (q, s')
          ∧ qs_rows s' q = filter (fun d => d ≠ document) (qs_rows s q)
          ∧ qs_count s' q ≤ qs_count s q.
Proof.
  intros Hpk. exists (documents_for k user). eexists.
  split; [by apply get_documents_run|].
  split; [by apply (remove_from_run self k)|].
  split; [by apply get_documents_run|].
  assert (qs_rows
            {| tag_table := tag_table s;
               tag_documents := removed_rows k document s;
               acl_entries := acl_entries s;
               document_table := document_table s;
               event_log := event_log s
                            ++ [removed_event self document actor] |}
            (documents_for k user)
          = filter (fun d => d ≠ document) (qs_rows s (documents_for k user)))
    as Hrows.
  { rewrite (qs_rows_documents_for s _ k user) by done.
    rewrite (qs_rows_documents_for s s k user) by done. simpl.
    unfold removed_rows. rewrite related_rows_removed.
    rewrite !list_filter_filter. apply list_filter_iff.
    intros d. tauto. }
  split; [done|].
  rewrite !qs_count_length, Hrows. apply length_filter.
Qed.

Lemma remove_from_filters_documents_witness :
  ∃ q s', get_documents invoice_tag 3 sample_store = Ok (q, sample_store)
          ∧ remove_from invoice_tag 7 None sample_store = Ok (tt, s')
          ∧ get_documents invoice_tag 3 s' = Ok (q, s')
          ∧ qs_rows s' q = filter (fun d => d ≠ 7) (qs_rows sample_store q)
          ∧ qs_count s' q ≤ qs_count sample_store q.
Proof.
  apply (remove_from_filters_documents invoice_tag 1 7 None 3 sample_store).
  reflexivity.
Defined.

(** ** What [save] writes *)

(** Whenever [save] succeeds, the instance it hands back carries a key, its
    own if it had one, and the same field values; the row of the instance
    can be read back under that key; every other row, the relation, the
    documents and the access entries are as before; and no other row holds
    the label of the instance. *)
Theorem save_writes_own_row (self r : Tag) (s s' : Store) :
  save self s = Ok (r, s') →
  ∃ k, pk r = Some k
       ∧ (∀ k0, pk self = Some k0 → k0 = k)
       ∧ class_of r = class_of self
       ∧ label r = label self
       ∧ color r = color self
       ∧ tag_table s' !! k = Some (row_of self)
       ∧ (∀ k', k' ≠ k → tag_table s' !! k' = tag_table s !! k')
       ∧ tag_documents s' = tag_documents s
       ∧ acl_entries s' = acl_entries s
       ∧ document_table s' = document_table s
       ∧ (∀ k' row, tag_table s' !! k' = Some row → k' ≠ k →
                    row_label row ≠ label self).
Proof.
  intros Hsave.
  apply save_ok_inv in Hsave as (Hnv & k & e & -> & Hk & ->).
  exists k. simpl. split; [done|].
  split; [intros k0 Hk0; destruct Hk as [Hk|[Hk _]]; congruence|].
  split; [done|]. split; [done|]. split; [done|].
  split; [apply lookup_insert_eq|].
  split; [intros k' Hne; by apply lookup_insert_ne|].
  split; [done|]. split; [done|]. split; [done|].
  intros k' row Hrow Hne Hl. rewrite lookup_insert_ne in Hrow by done.
  apply Hnv. exists k', row. split; [done|]. split; [|done].
  destruct Hk as [->|[-> _]]; congruence.
Qed.

Lemma save_bills_in_two_tag_store :
  save bills_tag two_tag_store
  = Ok (bills_tag, exec (save bills_tag) two_tag_store).
Proof. vm_compute. reflexivity. Qed.

Lemma save_writes_own_row_witness :
  ∃ k, pk bills_tag = Some k
       ∧ (∀ k0, pk bills_tag = Some k0 → k0 = k)
       ∧ class_of bills_tag = class_of bills_tag
       ∧ label bills_tag = label bills_tag
       ∧ color bills_tag = color bills_tag
       ∧ tag_table (exec (save bills_tag) two_tag_store) !! k
         = Some (row_of bills_tag)
       ∧ (∀ k', k' ≠ k →
                tag_table (exec (save bills_tag) two_tag_store) !! k'
                = tag_table two_tag_store !! k')
       ∧ tag_documents (exec (save bills_tag) two_tag_store)
         = tag_documents two_tag_store
       ∧ acl_entries (exec (save bills_tag) two_tag_store)
         = acl_entries two_tag_store
       ∧ document_table (exec (save bills_tag) two_tag_store)
         = document_table two_tag_store
       ∧ (∀ k' row,
            tag_table (exec (save bills_tag) two_tag_store) !! k' = Some row →
            k' ≠ k → row_label row ≠ label bills_tag).
Proof.
  apply (save_writes_own_row bills_tag bills_tag two_tag_store
           (exec (save bills_tag) two_tag_store)).
  apply save_bills_in_two_tag_store.
Defined.

(** The relabelled first tag is read back, the second tag is untouched. *)
Example save_writes_own_row_example :
  tag_table two_tag_store !! 1 = Some (mkRow "urgent" "#ff0000")
  ∧ tag_table (exec (save bills_tag) two_tag_store) !! 1
    = Some (mkRow "bills" "#0000ff")
  ∧ tag_table (exec (save bills_tag) two_tag_store) !! 2
    = Some (mkRow "archive" "#00ff00").
Proof. repeat split; vm_compute; reflexivity. Qed.

Lemma no_violation_after_write (self : Tag) (k : TagId) (s s1 : Store) :
  ¬ would_violate s self →
  pk self = Some k ∨ pk self = None →
  tag_table s1 = <[k := row_of self]> (tag_table s) →
  ¬ would_violate s1 (with_pk k self).
Proof.
  intros Hnv Hk Ht (k' & r' & Hk' & Hne & Hl). simpl in *.
  rewrite Ht in Hk'. apply lookup_insert_Some in Hk' as [[-> _]|[Hkk Hk']].
  { by apply Hne. }
  apply Hnv. exists k', r'. split; [done|]. split; [|done].
  destruct Hk as [->| ->]; congruence.
Qed.

(** Saving the instance a successful [save] handed back is an update: it
    succeeds, leaves the tag table as it is and logs one "edited" event. *)
Theorem save_again_is_update (self : Tag) (s : Store) :
  ¬ would_violate s self →
  ∃ r s1 s2, save self s = Ok (r, s1)
             ∧ save r s1 = Ok (r, s2)
             ∧ tag_table s2 = tag_table s1
             ∧ event_log s2 = event_log s1 ++ [edited_event r].
Proof.
  intros Hnv.
  assert (∃ k r s1, save self s = Ok (r, s1) ∧ r = with_pk k self
                    ∧ (pk self = Some k ∨ pk self = None)
                    ∧ tag_table s1 = <[k := row_of self]> (tag_table s))
    as (k & r & s1 & Hsave & -> & Hk & Ht).
  { destruct (is_stored_dec s self) as [(k & Hpk & Hrow)|Hns].
    - exists k, self. eexists.
      split; [by apply (save_update_run self s k)|].
      split; [by rewrite with_pk_own|]. split; [by left|done].
    - eexists (insert_key self s), _, _.
      split; [by apply save_insert_run|]. split; [done|]. split; [|done].
      unfold insert_key. destruct (pk self); simpl; auto. }
  exists (with_pk k self), s1. eexists. split; [done|].
  split.
  - apply (save_update_run (with_pk k self) s1 k); [done| |].
    + rewrite Ht, lookup_insert_eq. by eexists.
    + by apply (no_violation_after_write self k s).
  - simpl. split; [|done]. rewrite Ht.
    change (row_of (with_pk k self)) with (row_of self).
    apply insert_insert_eq.
Qed.

Lemma save_again_is_update_witness :
  ∃ r s1 s2, save new_invoice_tag empty_store = Ok (r, s1)
             ∧ save r s1 = Ok (r, s2)
             ∧ tag_table s2 = tag_table s1
             ∧ event_log s2 = event_log s1 ++ [edited_event r].
Proof.
  apply (save_again_is_update new_invoice_tag empty_store).
  apply new_invoice_tag_no_violation.
Defined.

(** ** The event log *)

Lemma step_logs_one_event (s s' : Store) :
  step s s' → ∃ e, event_log s' = event_log s ++ [e].
Proof.
  intros [self r s1 H|self d a s1 H|self d a s1 H].
  - apply save_ok_inv in H as (_ & k & e & _ & _ & ->). by exists e.
  - apply attach_to_ok_inv in H as (k & _ & _ & ->). by eexists.
  - apply remove_from_ok_inv in H as (k & _ & ->). by eexists.
Qed.

(** The log is append-only and grows by one event per successful call:
    after [n] calls of [save], [attach_to] and [remove_from] in any order,
    the log is the old log followed by exactly [n] events. *)
Theorem calls_log_one_event_each (n : nat) (s s' : Store) :
  nsteps step n s s' →
  ∃ events, event_log s' = event_log s ++ events ∧ length events = n.
Proof.
  induction 1 as [s|n s s1 s2 Hstep _ (events & Hlog & Hlen)].
  - exists []. by rewrite app_nil_r.
  - apply step_logs_one_event in Hstep as (e & He).
    exists (e :: events). rewrite Hlog, He, <- app_assoc. simpl.
    by rewrite Hlen.
Qed.

Lemma calls_log_one_event_each_witness :
  ∃ events, event_log created_store = event_log empty_store ++ events
            ∧ length events = 1.
Proof.
  apply (calls_log_one_event_each 1 empty_store created_store).
  apply nsteps_once.
  apply (step_save empty_store new_invoice_tag invoice_tag).
  vm_compute. reflexivity.
Defined.

(** ** Listings *)

(** After a tag has been created, the listing holds the new tag and the
    tags it held before, nothing else. *)
Theorem listing_after_create (c : ModelClass) (self : Tag) (s : Store) :
  ¬ is_stored s self → ¬ would_violate s self →
  ∃ r s', save self s = Ok (r, s')
          ∧ objects_all c s' ≡ₚ as_class c r :: objects_all c s.
Proof.
  intros Hns Hnv. eexists _, _. split; [by apply save_insert_run|].
  rewrite !objects_all_Permutation. unfold instances. simpl.
  change (map ?f ?l) with (f <$> l).
  rewrite map_to_list_insert by (by apply insert_key_fresh). done.
Qed.

Lemma listing_after_create_witness :
  ∃ r s', save new_invoice_tag empty_store = Ok (r, s')
          ∧ objects_all TagClass s'
            ≡ₚ as_class TagClass r :: objects_all TagClass empty_store.
Proof.
  apply (listing_after_create TagClass new_invoice_tag empty_store).
  - apply new_invoice_tag_unstored.
  - apply new_invoice_tag_no_violation.
Defined.

Lemma instances_labels_NoDup (c : ModelClass) (s : Store) :
  labels_unique s → NoDup (label <$> instances c s).
Proof.
  intros Hu. unfold instances. change (map ?f ?l) with (f <$> l).
  rewrite <- list_fmap_compose.
  apply NoDup_fmap_2_strong; [|apply NoDup_map_to_list].
  intros [k1 r1] [k2 r2] H1%elem_of_map_to_list H2%elem_of_map_to_list Hl.
  simpl in Hl. assert (k1 = k2) as -> by (by apply (Hu k1 k2 r1 r2)).
  congruence.
Qed.

Lemma string_leb_ne_ltb (a b : string) :
  String.leb a b = true → a ≠ b → String.ltb a b = true.
Proof.
  unfold String.leb, String.ltb. intros Hle Hne.
  destruct (String.compare a b) eqn:Hc; [|done|done].
  by apply String.compare_eq_iff in Hc.
Qed.

Lemma sorted_distinct_strict (l : list Tag) :
  StronglySorted label_le l → NoDup (label <$> l) →
  StronglySorted (fun a b => String.ltb (Tag_str a) (Tag_str b) = true) l.
Proof.
  induction 1 as [|a l Hl IH Hall]; [constructor|].
  rewrite fmap_cons, NoDup_cons. intros [Hnot Hnd].
  constructor; [by apply IH|].
  apply Forall_forall. intros b Hb.
  apply string_leb_ne_ltb.
  - rewrite Forall_forall in Hall. by apply Hall.
  - unfold Tag_str. intros Heq. apply Hnot. rewrite Heq.
    apply list_elem_of_fmap. by exists b.
Qed.

(** In every store the module can produce, a listing holds the stored tags,
    each once, and is strictly increasing in what the tags print as
    ([__str__], the label): no two listed tags print alike. *)
Theorem listing_strictly_increasing (c : ModelClass) (s : Store) :
  reachable s →
  StronglySorted (fun a b => String.ltb (Tag_str a) (Tag_str b) = true)
                 (objects_all c s)
  ∧ objects_all c s ≡ₚ instances c s
  ∧ NoDup (Tag_str <$> objects_all c s)
  ∧ length (objects_all c s) = size (tag_table s).
Proof.
  intros Hr.
  assert (StronglySorted label_le (objects_all c s)) as Hsorted.
  { pose proof (objects_all_sorted c s) as Hs.
    induction Hs as [|a l Hl IH Hall]; constructor; [done|].
    eapply Forall_impl; [exact Hall|].
    intros b Hab. by apply (ordering_le_label c). }
  assert (NoDup (label <$> objects_all c s)) as Hnd.
  { rewrite objects_all_Permutation.
    by apply instances_labels_NoDup, reachable_labels_unique. }
  split; [|split; [apply objects_all_Permutation|split; [exact Hnd|]]].
  - by apply sorted_distinct_strict.
  - rewrite objects_all_Permutation. unfold instances.
    by rewrite length_map, length_map_to_list.
Qed.

Lemma two_tag_store_reachable : reachable two_tag_store.
Proof.
  apply (reachable_step one_tag_store).
  - apply (reachable_step empty_store).
    + by apply reachable_init.
    + apply (step_save empty_store urgent_tag (with_pk 1 urgent_tag)).
      vm_compute. reflexivity.
  - apply (step_save one_tag_store archive_tag (with_pk 2 archive_tag)).
    vm_compute. reflexivity.
Defined.

Lemma listing_strictly_increasing_witness :
  StronglySorted (fun a b => String.ltb (Tag_str a) (Tag_str b) = true)
                 (objects_all TagClass two_tag_store)
  ∧ objects_all TagClass two_tag_store ≡ₚ instances TagClass two_tag_store
  ∧ NoDup (Tag_str <$> objects_all TagClass two_tag_store)
  ∧ length (objects_all TagClass two_tag_store)
    = size (tag_table two_tag_store).
Proof.
  apply (listing_strictly_increasing TagClass two_tag_store).
  apply two_tag_store_reachable.
Defined.

(** "urgent" was created first and is listed second. *)
Example two_tag_listing :
  objects_all TagClass two_tag_store
  = [with_pk 2 archive_tag; with_pk 1 urgent_tag].
Proof. vm_compute. reflexivity. Qed.

(** ** What the calls leave alone *)

Lemma qs_rows_same (s s' : Store) (q : QuerySet) :
  tag_documents s' = tag_documents s → acl_entries s' = acl_entries s →
  qs_rows s' q = qs_rows s q.
Proof.
  intros Hd Ha. induction q as [t|p u q IH]; simpl.
  - by rewrite Hd.
  - rewrite IH. apply list_filter_iff. intros d.
    unfold has_access. by rewrite Ha.
Qed.

(** Saving a tag, new or edited, changes no tag's documents: every queryset
    lists and counts after the save what it listed and counted before. *)
Theorem save_keeps_documents (self : Tag) (s : Store) :
  ¬ would_violate s self →
  ∃ r s', save self s = Ok (r, s')
          ∧ ∀ q, qs_rows s' q = qs_rows s q ∧ qs_count s' q = qs_count s q.
Proof.
  intros Hnv.
  assert (∃ r s', save self s = Ok (r, s')) as (r & s' & Hsave).
  { destruct (is_stored_dec s self) as [(k & Hpk & Hrow)|Hns].
    - eexists _, _. by apply (save_update_run self s k).
    - eexists _, _. by apply save_insert_run. }
  exists r, s'. split; [done|]. intros q.
  apply save_ok_inv in Hsave as (_ & k & e & _ & _ & ->).
  assert (∀ s1, qs_rows s1 q = qs_rows s q →
                qs_count s1 q = qs_count s q) as Hcount.
  { intros s1 H1. by rewrite !qs_count_length, H1. }
  split; [|apply Hcount]; by apply qs_rows_same.
Qed.

Lemma bills_tag_no_violation : ¬ would_violate sample_store bills_tag.
Proof. rewrite <- label_taken_spec. vm_compute. discriminate. Qed.

Lemma save_keeps_documents_witness :
  ∃ r s', save bills_tag sample_store = Ok (r, s')
          ∧ ∀ q, qs_rows s' q = qs_rows sample_store q
                 ∧ qs_count s' q = qs_count sample_store q.
Proof.
  apply (save_keeps_documents bills_tag sample_store).
  apply bills_tag_no_violation.
Defined.

(** The store of the example has a document to keep. *)
Example sample_store_documents :
  qs_rows sample_store (documents_for 1 3) = [7]
  ∧ qs_rows (exec (save bills_tag) sample_store) (documents_for 1 3) = [7].
Proof. split; vm_compute; reflexivity. Qed.

Lemma step_keeps_tags_and_access (s s' : Store) :
  step s s' →
  acl_entries s' = acl_entries s
  ∧ ∀ k, is_Some (tag_table s !! k) → is_Some (tag_table s' !! k).
Proof.
  intros [self r s1 H|self d a s1 H|self d a s1 H].
  - apply save_ok_inv in H as (_ & k & e & _ & _ & ->). simpl.
    split; [done|]. intros k' Hk'.
    destruct (decide (k = k')) as [->|Hne].
    + rewrite lookup_insert_eq. by eexists.
    + by rewrite lookup_insert_ne.
  - apply attach_to_ok_inv in H as (k & _ & _ & ->). done.
  - apply remove_from_ok_inv in H as (k & _ & ->). done.
Qed.

(** No sequence of calls of [save], [attach_to] and [remove_from] deletes a
    tag or changes an access entry. *)
Theorem calls_never_delete_tags (s s' : Store) :
  rtc step s s' →
  acl_entries s' = acl_entries s
  ∧ ∀ k, is_Some (tag_table s !! k) → is_Some (tag_table s' !! k).
Proof.
  induction 1 as [s|s s1 s2 Hstep _ [Hacl Htags]]; [done|].
  apply step_keeps_tags_and_access in Hstep as [Hacl1 Htags1].
  split; [congruence|]. intros k Hk. by apply Htags, Htags1.
Qed.

Lemma calls_never_delete_tags_witness :
  ∃ s', remove_from invoice_tag 7 None sample_store = Ok (tt, s')
        ∧ acl_entries s' = acl_entries sample_store
        ∧ ∀ k, is_Some (tag_table sample_store !! k) →
               is_Some (tag_table s' !! k).
Proof.
  eexists. split; [vm_compute; reflexivity|].
  apply (calls_never_delete_tags sample_store).
  apply rtc_once.
  apply (step_remove_from sample_store invoice_tag 7 None).
  vm_compute. reflexivity.
Defined.
